(** * nestjs-gate: the authorization gate, embedded and verified

    A shallow embedding of [GateService] (gate.service.ts) and of
    [GateResponse] (gate.response.ts).

    Conventions of the embedding.
    - Strings are ASCII strings; ability names and method names are
      [string]s whose characters are code units below 128.  [JsString]
      gives [formatAbilityToMethod] on every JavaScript string, with the
      built-ins of the engine as parameters.
    - [await] is sequencing: the service awaits every stage before it
      starts the next one, so a promise is represented by the result it
      settles to.
    - Callbacks (hooks, ability callbacks, policy methods) are user code.
      They are state transformers over an application world [W] and may
      throw.  They read the argument array but only the service itself
      ([args.shift()] in [callPolicyMethod]) writes to it.
    - Every call site of a callback in the service appends an [event] to a
      trace kept in the store, which callbacks cannot touch; "the callback
      was not invoked" is read off that trace. *)

From Stdlib Require Import Ascii.
From stdpp Require Import base strings list gmap.

Set Default Proof Using "Type".

(** ** String primitives used by [formatAbilityToMethod] *)

Module Str.

Definition code (c : ascii) : nat := nat_of_ascii c.

Definition isUpper (c : ascii) : bool :=
  (65 <=? code c)%nat && (code c <=? 90)%nat.

Definition isLower (c : ascii) : bool :=
  (97 <=? code c)%nat && (code c <=? 122)%nat.

Definition lowerChar (c : ascii) : ascii :=
  if isUpper c then ascii_of_nat (code c + 32) else c.

Definition upperChar (c : ascii) : ascii :=
  if isLower c then ascii_of_nat (code c - 32) else c.

(** [String.prototype.toLowerCase] / [toUpperCase]. *)
Fixpoint toLowerCase (s : string) : string :=
  match s with
  | EmptyString => EmptyString
  | String c r => String (lowerChar c) (toLowerCase r)
  end.

Fixpoint toUpperCase (s : string) : string :=
  match s with
  | EmptyString => EmptyString
  | String c r => String (upperChar c) (toUpperCase r)
  end.

(** [s.charAt(0)]: the first character as a string, or the empty string. *)
Definition charAt0 (s : string) : string :=
  match s with
  | EmptyString => EmptyString
  | String c _ => String c EmptyString
  end.

(** [s.slice(1)]. *)
Definition slice1 (s : string) : string :=
  match s with
  | EmptyString => EmptyString
  | String _ r => r
  end.

(** [s.includes(needle)]. *)
Fixpoint includes (needle s : string) : bool :=
  if String.prefix needle s then true
  else match s with
       | EmptyString => false
       | String _ r => includes needle r
       end.

(** The character class [[-_\s]] of the split pattern, on ASCII:
    hyphen, underscore, and the white space characters tab, line feed,
    vertical tab, form feed, carriage return and space. *)
Definition isSep (c : ascii) : bool :=
  let n := code c in
  (n =? 45)%nat || (n =? 95)%nat || (n =? 32)%nat
  || ((9 <=? n)%nat && (n <=? 13)%nat).

(** [s.split(/[-_\s]+/)]: scan left to right; [cur] is the word being
    read (reversed), [inRun] tells whether the previous character was a
    separator.  A run of separators closes the current word once. *)
Fixpoint splitGo (inRun : bool) (cur : string) (s : string) : list string :=
  match s with
  | EmptyString => [String.rev cur]
  | String c r =>
      if isSep c then
        if inRun then splitGo true cur r
        else String.rev cur :: splitGo true EmptyString r
      else splitGo false (String c cur) r
  end.

Definition split (s : string) : list string := splitGo false EmptyString s.

(** [arr.map((word, index) => f(word, index))]. *)
Fixpoint mapIndexFrom {A B} (f : A -> nat -> B) (i : nat) (l : list A) : list B :=
  match l with
  | [] => []
  | x :: r => f x i :: mapIndexFrom f (S i) r
  end.

Definition mapIndex {A B} (f : A -> nat -> B) (l : list A) : list B :=
  mapIndexFrom f 0 l.

(** [arr.join('')]. *)
Fixpoint join (l : list string) : string :=
  match l with
  | [] => EmptyString
  | w :: r => w +:+ join r
  end.

End Str.

(** ** [GateService.formatAbilityToMethod] *)

Definition formatAbilityToMethod (ability : string) : string :=
  if Str.includes "-" ability then
    Str.join
      (Str.mapIndex
         (fun word index =>
            if (index =? 0)%nat then word
            else Str.toUpperCase (Str.charAt0 word) +:+ Str.slice1 word)
         (Str.split (Str.toLowerCase ability)))
  else ability.

(** The derivation rule as the specification words it: lower-case the
    name, cut it into words on runs of hyphen, underscore and white space,
    keep the first word and capitalize the first character of the others. *)
Module MethodNameRule.

(** The longest prefix free of separators, and what follows it. *)
Fixpoint word (s : string) : string * string :=
  match s with
  | EmptyString => (EmptyString, EmptyString)
  | String c r =>
      if Str.isSep c then (EmptyString, s)
      else let '(w, rest) := word r in (String c w, rest)
  end.

(** Drop a leading run of separators. *)
Fixpoint skipRun (s : string) : string :=
  match s with
  | EmptyString => EmptyString
  | String c r => if Str.isSep c then skipRun r else s
  end.

(** Words delimited by runs of separators; [fuel] bounds the number of
    words and [String.length s] always suffices. *)
Fixpoint wordsFuel (fuel : nat) (s : string) : list string :=
  let '(w, rest) := word s in
  match rest with
  | EmptyString => [w]
  | String _ _ =>
      match fuel with
      | O => [w]
      | S fuel' => w :: wordsFuel fuel' (skipRun rest)
      end
  end.

Definition words (s : string) : list string := wordsFuel (String.length s) s.

Definition capitalize (w : string) : string :=
  match w with
  | EmptyString => EmptyString
  | String c r => String (Str.upperChar c) r
  end.

Definition camel (ws : list string) : string :=
  match ws with
  | [] => EmptyString
  | first :: others => first +:+ Str.join (map capitalize others)
  end.

Definition methodName (ability : string) : string :=
  if Str.includes "-" ability then camel (words (Str.toLowerCase ability))
  else ability.

End MethodNameRule.

(** ** JavaScript values *)

(** A class is known by its name and its chain of superclasses, so that
    the prototype chain is part of the value. *)
Inductive Class : Type :=
| Root (name : string)
| Extends (name : string) (super : Class).

Global Instance Class_eq_dec : EqDecision Class.
Proof. solve_decision. Defined.

(** The proper ancestors of a class, nearest first. *)
Fixpoint ancestors (c : Class) : list Class :=
  match c with
  | Root _ => []
  | Extends _ s => s :: ancestors s
  end.

Inductive value : Type :=
| VUndefined
| VNull
| VBool (b : bool)
| VNum (n : Z)
| VStr (s : string)
| VInst (c : Class) (ref : Z)      (* an object created by [new c] *)
| VPrototype (c : Class)           (* the object [c.prototype] *)
| VClass (c : Class).              (* the class (constructor function) itself *)

Global Instance value_eq_dec : EqDecision value.
Proof. solve_decision. Defined.

Inductive jstype : Type :=
| TUndefined | TObject | TBoolean | TNumber | TString | TFunction.

Global Instance jstype_eq_dec : EqDecision jstype.
Proof. solve_decision. Defined.

Definition typeof (v : value) : jstype :=
  match v with
  | VUndefined => TUndefined
  | VNull => TObject
  | VBool _ => TBoolean
  | VNum _ => TNumber
  | VStr _ => TString
  | VInst _ _ => TObject
  | VPrototype _ => TObject
  | VClass _ => TFunction
  end.

Definition truthy (v : value) : bool :=
  match v with
  | VUndefined => false
  | VNull => false
  | VBool b => b
  | VNum n => negb (n =? 0)%Z
  | VStr s => negb (String.eqb s "")
  | VInst _ _ => true
  | VPrototype _ => true
  | VClass _ => true
  end.

(** [v instanceof target]: [target.prototype] occurs in the prototype
    chain of [v]. *)
Definition instanceOf (v : value) (target : Class) : bool :=
  match v with
  | VInst c _ => bool_decide (target = c) || bool_decide (target ∈ ancestors c)
  | VPrototype c => bool_decide (target ∈ ancestors c)
  | _ => false
  end.

(** [args[0]]. *)
Definition first (args : list value) : value :=
  match args with
  | [] => VUndefined
  | x :: _ => x
  end.

(** ** [GateResponse] (gate.response.ts) *)

Record GateResponse : Type := mkGateResponse {
  allowed : bool;
  message : option string;
  code : value;
  status : option Z;
}.

(** What the service can throw or let through. *)
Inductive exn : Type :=
| HttpException (response : GateResponse) (httpStatus : Z)
| ForbiddenException (response : GateResponse)
| TypeError
| Raised (payload : value).        (* thrown by a callback *)

Inductive completion (A : Type) : Type :=
| Normal (a : A)
| Throw (e : exn).
Arguments Normal {A} a.
Arguments Throw {A} e.

(** The HTTP status an exception answers with; [ForbiddenException] is
    403 ("authorize() throws 403 by default or the provided status"). *)
Definition getStatus (e : exn) : option Z :=
  match e with
  | HttpException _ st => Some st
  | ForbiddenException _ => Some 403%Z
  | _ => None
  end.

Definition getResponse (e : exn) : option GateResponse :=
  match e with
  | HttpException r _ => Some r
  | ForbiddenException r => Some r
  | _ => None
  end.

Module Response.

Definition allow (message : option string) (code : value) : GateResponse :=
  mkGateResponse true message code None.

Definition deny (message : option string) (code : value) : GateResponse :=
  mkGateResponse false message code None.

Definition denied (r : GateResponse) : bool := negb (allowed r).

Definition withStatus (status : option Z) (r : GateResponse) : GateResponse :=
  mkGateResponse (allowed r) (message r) (code r) status.

Definition asNotFound (r : GateResponse) : GateResponse :=
  withStatus (Some 404%Z) r.

Definition denyWithStatus (status : Z) (message : option string) (code : value)
  : GateResponse :=
  withStatus (Some status) (deny message code).

Definition denyAsNotFound (message : option string) (code : value) : GateResponse :=
  denyWithStatus 404 message code.

(** [this._status ? new HttpException(this, this._status)
                  : new ForbiddenException(this)]:
    the test is on the truthiness of the number. *)
Definition denial (r : GateResponse) : exn :=
  match status r with
  | Some st => if (st =? 0)%Z then ForbiddenException r else HttpException r st
  | None => ForbiddenException r
  end.

Definition authorize (r : GateResponse) : completion GateResponse :=
  if denied r then Throw (denial r) else Normal r.

Definition toString (r : GateResponse) : option string := message r.

(** The object [toJSON] builds: [{ allowed, message, code }]. *)
Record JSON : Type := mkJSON {
  jsonAllowed : bool;
  jsonMessage : option string;
  jsonCode : value;
}.

Definition toJSON (r : GateResponse) : JSON :=
  mkJSON (allowed r) (message r) (code r).

End Response.

(** The declared type [Result = boolean | null | GateResponse | undefined]. *)
Inductive Result : Type :=
| RNull
| RUndefined
| RBool (b : bool)
| RResponse (r : GateResponse).

(** [x === null || x === undefined], the test behind [??] and [??=]. *)
Definition nullish (r : Result) : bool :=
  match r with
  | RNull | RUndefined => true
  | _ => false
  end.

Definition isTruthy (r : Result) : bool :=
  match r with
  | RBool b => b
  | RResponse _ => true
  | _ => false
  end.

(** ** Events: the call sites of user code *)

Inductive event : Type :=
| EvBefore (index : nat)
| EvAfter (index : nat)
| EvAbility (ability : string) (passed : list value)
| EvPolicyBefore (passed : list value)
| EvPolicyMethod (method : string) (passed : list value).

(** ** The store and the monad of the service *)

(** User code: a transformer of the world [W] that returns or throws. *)
Abbreviation Effect W A := (W -> completion A * W) (only parsing).

Section Engine.

Context {W : Type}.

(** [world]: whatever the callbacks read and write.
    [args]: the one argument array of the query, shared by reference.
    [rls]: the value held by the [AsyncLocalStorage], if a scope is open.
    [trace]: the callbacks invoked so far, oldest first. *)
Record store : Type := mkStore {
  world : W;
  args : list value;
  rls : option value;
  trace : list event;
}.

Definition M (A : Type) : Type := store -> completion A * store.

Definition ret {A} (a : A) : M A := fun s => (Normal a, s).

Definition throw {A} (e : exn) : M A := fun s => (Throw e, s).

Definition bind {A B} (m : M A) (k : A -> M B) : M B :=
  fun s =>
    match m s with
    | (Normal a, s') => k a s'
    | (Throw e, s') => (Throw e, s')
    end.

Definition lift {A} (c : completion A) : M A := fun s => (c, s).

Definition getArgs : M (list value) := fun s => (Normal (args s), s).

(** [args.shift()], the removed element dropped. *)
Definition shiftArgs : M unit :=
  fun s => (Normal tt, mkStore (world s) (tail (args s)) (rls s) (trace s)).

(** Calling user code at a call site of the service. *)
Definition invoke {A} (ev : event) (f : Effect W A) : M A :=
  fun s =>
    let '(r, w) := f (world s) in
    (r, mkStore w (args s) (rls s) (trace s ++ [ev])).

End Engine.

Arguments store W : clear implicits.
Arguments M W A : clear implicits.

Declare Scope gate_scope.
Delimit Scope gate_scope with gate.
Notation "'let*' x ':=' m 'in' k" := (bind m (fun x => k))
  (at level 10, x name, m at level 100, k at level 200) : gate_scope.
Local Open Scope gate_scope.

(** ** [GateService] (gate.service.ts) *)

(** [(user, ...args) => PolicyResult] *)
Abbreviation AbilityCallback W :=
  (value -> list value -> Effect W Result) (only parsing).

(** [(user, ability, args) => PolicyResult] *)
Abbreviation BeforeCallback W :=
  (value -> string -> list value -> Effect W Result) (only parsing).

(** [(user, ability, result, args) => PolicyResult] *)
Abbreviation AfterCallback W :=
  (value -> string -> Result -> list value -> Effect W Result) (only parsing).

(** A policy object: its callable properties by name.  [before] is one of
    them and is called as [before(user, ability, ...args)]. *)
Abbreviation PolicyMap W := (gmap string (AbilityCallback W)) (only parsing).

(** What [resolveAuthCallback] hands back: a function of [(user, ...args)]
    that the service then calls. *)
Abbreviation Callable W := (value -> list value -> M W Result) (only parsing).

Section Service.

Context {W : Type}.

Record GateService : Type := mkGate {
  policies : list (Class * PolicyMap W);     (* Map<Type, PolicyMap>, in insertion order *)
  abilities : gmap string (AbilityCallback W); (* Map<string, AbilityCallback> *)
  beforeCallbacks : list (BeforeCallback W);
  afterCallbacks : list (AfterCallback W);
}.

(** *** The [Map] of policies: [set], [get], [has] and iteration order *)

Fixpoint mapSet (k : Class) (v : PolicyMap W) (m : list (Class * PolicyMap W))
  : list (Class * PolicyMap W) :=
  match m with
  | [] => [(k, v)]
  | (k', v') :: r =>
      if decide (k = k') then (k, v) :: r else (k', v') :: mapSet k v r
  end.

Fixpoint mapGet (k : Class) (m : list (Class * PolicyMap W)) : option (PolicyMap W) :=
  match m with
  | [] => None
  | (k', v') :: r => if decide (k = k') then Some v' else mapGet k r
  end.

(** Keys are classes: a key that is not a class is never present. *)
Definition mapGetValue (k : value) (m : list (Class * PolicyMap W)) : option (PolicyMap W) :=
  match k with
  | VClass c => mapGet c m
  | _ => None
  end.

(** *** Registration *)

Inductive PolicyMeta : Type :=
| Direct (type : Class)
| ForwardReference (forwardRef : unit -> Class).

Definition registerPolicy (g : GateService) (entry : PolicyMeta * PolicyMap W)
  : GateService :=
  let meta :=
    match fst entry with
    | Direct c => c
    | ForwardReference f => f tt
    end in
  mkGate (mapSet meta (snd entry) (policies g))
         (abilities g) (beforeCallbacks g) (afterCallbacks g).

Definition onApplicationBootstrap (providers : list (PolicyMeta * PolicyMap W))
    (g : GateService) : GateService :=
  fold_left registerPolicy providers g.

Definition newGate : GateService := mkGate [] ∅ [] [].

Definition define (ability : string) (callback : AbilityCallback W)
    (g : GateService) : GateService :=
  mkGate (policies g) (<[ability := callback]> (abilities g))
         (beforeCallbacks g) (afterCallbacks g).

Definition before (callback : BeforeCallback W) (g : GateService) : GateService :=
  mkGate (policies g) (abilities g)
         (beforeCallbacks g ++ [callback]) (afterCallbacks g).

Definition after (callback : AfterCallback W) (g : GateService) : GateService :=
  mkGate (policies g) (abilities g)
         (beforeCallbacks g) (afterCallbacks g ++ [callback]).

(** [string | string[]] *)
Inductive Abilities : Type :=
| One (ability : string)
| Many (abilities : list string).

Definition toArray (a : Abilities) : list string :=
  match a with
  | One x => [x]
  | Many l => l
  end.

Definition has (g : GateService) (a : Abilities) : bool :=
  forallb (fun ability => bool_decide (is_Some (abilities g !! ability))) (toArray a).

(** *** The ambient user *)

Definition resolveUser : M W value :=
  fun s => (Normal (default VUndefined (rls s)), s).

(** [this.rls.run(user, callback)]: the store holds [user] while the
    callback runs and gets its former content back afterwards. *)
Definition runWithUser {A} (user : value) (callback : M W A) : M W A :=
  fun s =>
    let '(r, s') := callback (mkStore (world s) (args s) (Some user) (trace s)) in
    (r, mkStore (world s') (args s') (rls s) (trace s')).

(** *** Policy lookup *)

(** [obj.constructor] *)
Definition constructorOf (obj : value) : completion value :=
  match obj with
  | VNull | VUndefined => Throw TypeError
  | VInst c _ => Normal (VClass c)
  | VPrototype c => Normal (VClass c)
  | _ => Normal VUndefined
  end.

(** [obj.prototype] *)
Definition prototypeOf (obj : value) : completion value :=
  match obj with
  | VNull | VUndefined => Throw TypeError
  | VClass c => Normal (VPrototype c)
  | _ => Normal VUndefined
  end.

(** [for (const [target, policy] of this.policies)
       if (proto instanceof target) return policy;] *)
Fixpoint scanPolicies (proto : value) (m : list (Class * PolicyMap W))
  : option (PolicyMap W) :=
  match m with
  | [] => None
  | (target, policy) :: r =>
      if instanceOf proto target then Some policy else scanPolicies proto r
  end.

(** The result is [Some policy], or [None] for the source's [false]. *)
Definition getPolicyFor (g : GateService) (obj : value)
  : completion (option (PolicyMap W)) :=
  match (if decide (typeof obj = TObject) then constructorOf obj else Normal obj) with
  | Throw e => Throw e
  | Normal target =>
      match mapGetValue target (policies g) with
      | Some policy => Normal (Some policy)
      | None =>
          match (if decide (typeof obj = TObject) then Normal obj
                 else prototypeOf obj) with
          | Throw e => Throw e
          | Normal proto => Normal (scanPolicies proto (policies g))
          end
      end
  end.

(** *** Policy callbacks *)

Definition callPolicyBefore (policy : PolicyMap W) (user : value) (ability : string)
  : M W Result :=
  match policy !! "before" with
  | None => ret RUndefined
  | Some f =>
      let* a := getArgs in
      invoke (EvPolicyBefore (VStr ability :: a)) (f user (VStr ability :: a))
  end.

Definition callPolicyMethod (policy : PolicyMap W) (method : string) (user : value)
  : M W Result :=
  let* a := getArgs in
  let* _ := (if decide (typeof (first a) = TFunction) then shiftArgs else ret tt) in
  let* a' := getArgs in
  match policy !! method with
  | Some f => invoke (EvPolicyMethod method a') (f user a')
  | None => throw TypeError
  end.

(** The closure ignores its own parameters and works on the captured
    [user], [ability] and (by reference) [args]. *)
Definition resolvePolicyCallback (user : value) (ability : string)
    (policy : PolicyMap W) : option (Callable W) :=
  let method := formatAbilityToMethod ability in
  match policy !! method with
  | None => None
  | Some _ =>
      Some (fun _ _ =>
              let* r := callPolicyBefore policy user ability in
              if nullish r then callPolicyMethod policy method user else ret r)
  end.

Definition resolveAuthCallback (g : GateService) (user : value) (ability : string)
  : M W (Callable W) :=
  let* a := getArgs in
  let* fromPolicy :=
    (if truthy (first a) then
       let* policy := lift (getPolicyFor g (first a)) in
       match policy with
       | Some p => ret (resolvePolicyCallback user ability p)
       | None => ret None
       end
     else ret None) in
  match fromPolicy with
  | Some callback => ret callback
  | None =>
      match abilities g !! ability with
      | Some f => ret (fun u passed => invoke (EvAbility ability passed) (f u passed))
      | None => ret (fun _ _ => ret RNull)
      end
  end.

Definition callAuthCallback (g : GateService) (user : value) (ability : string)
  : M W Result :=
  let* callback := resolveAuthCallback g user ability in
  let* a := getArgs in
  callback user a.

(** *** Hooks *)

Fixpoint callBeforeFrom (index : nat) (hooks : list (BeforeCallback W))
    (user : value) (ability : string) : M W Result :=
  match hooks with
  | [] => ret RNull
  | hook :: r =>
      let* a := getArgs in
      let* result := invoke (EvBefore index) (hook user ability a) in
      if nullish result then callBeforeFrom (S index) r user ability
      else ret result
  end.

Definition callBeforeCallbacks (g : GateService) (user : value) (ability : string)
  : M W Result :=
  callBeforeFrom 0 (beforeCallbacks g) user ability.

(** [result ??= await after(user, ability, result, args)] for each hook. *)
Fixpoint callAfterFrom (index : nat) (hooks : list (AfterCallback W))
    (user : value) (ability : string) (result : Result) : M W Result :=
  match hooks with
  | [] => ret result
  | hook :: r =>
      let* result' :=
        (if nullish result then
           let* a := getArgs in
           invoke (EvAfter index) (hook user ability result a)
         else ret result) in
      callAfterFrom (S index) r user ability result'
  end.

Definition callAfterCallbacks (g : GateService) (user : value) (ability : string)
    (result : Result) : M W Result :=
  callAfterFrom 0 (afterCallbacks g) user ability result.

(** *** Queries *)

(** [(await callBeforeCallbacks(..)) ?? (await callAuthCallback(..))] *)
Definition primary (g : GateService) (user : value) (ability : string)
  : M W Result :=
  let* b := callBeforeCallbacks g user ability in
  if nullish b then callAuthCallback g user ability else ret b.

Definition raw (g : GateService) (ability : string) : M W Result :=
  let* user := resolveUser in
  let* result := primary g user ability in
  callAfterCallbacks g user ability result.

(** [result instanceof GateResponse ? result
      : result ? GateResponse.allow() : GateResponse.deny()] *)
Definition coerce (result : Result) : GateResponse :=
  match result with
  | RResponse r => r
  | _ => if isTruthy result then Response.allow None VNull
         else Response.deny None VNull
  end.

Definition inspect (g : GateService) (ability : string) : M W GateResponse :=
  let* result := raw g ability in
  ret (coerce result).

Fixpoint checkLoop (g : GateService) (l : list string) : M W bool :=
  match l with
  | [] => ret true
  | ability :: r =>
      let* response := inspect g ability in
      if negb (allowed response) then ret false else checkLoop g r
  end.

Definition check (g : GateService) (a : Abilities) : M W bool :=
  checkLoop g (toArray a).

Definition allows (g : GateService) (a : Abilities) : M W bool := check g a.

Definition denies (g : GateService) (a : Abilities) : M W bool :=
  let* r := allows g a in ret (negb r).

Fixpoint anyLoop (g : GateService) (l : list string) : M W bool :=
  match l with
  | [] => ret false
  | ability :: r =>
      let* response := inspect g ability in
      if allowed response then ret true else anyLoop g r
  end.

Definition any (g : GateService) (a : Abilities) : M W bool :=
  anyLoop g (toArray a).

Definition none (g : GateService) (a : Abilities) : M W bool :=
  let* r := any g a in ret (negb r).

Definition authorize (g : GateService) (ability : string) : M W GateResponse :=
  let* response := inspect g ability in
  lift (Response.authorize response).

End Service.

Arguments GateService W : clear implicits.

(** ** Predicates on runs, used to state the properties *)

Section Runs.

Context {W : Type}.

(** Every hook of [hooks], called in order on the world it finds,
    returns [null] or [undefined]; the result is the world they leave. *)
Fixpoint beforePass (hooks : list (BeforeCallback W)) (user : value)
    (ability : string) (a : list value) (w : W) : option W :=
  match hooks with
  | [] => Some w
  | hook :: r =>
      match hook user ability a w with
      | (Normal res, w') =>
          if nullish res then beforePass r user ability a w' else None
      | (Throw _, _) => None
      end
  end.

(** The same for after-hooks, each one receiving the accumulated
    result, which is [null] or [undefined] throughout. *)
Fixpoint afterPass (hooks : list (AfterCallback W)) (user : value)
    (ability : string) (result : Result) (a : list value) (w : W)
  : option (Result * W) :=
  match hooks with
  | [] => Some (result, w)
  | hook :: r =>
      match hook user ability result a w with
      | (Normal res, w') =>
          if nullish res then afterPass r user ability res a w' else None
      | (Throw _, _) => None
      end
  end.

(** A hook that never decides: whatever it is given, it returns [null]
    or [undefined]. *)
Definition silentBefore (hook : BeforeCallback W) : Prop :=
  ∀ user ability a w, ∃ res w',
    hook user ability a w = (Normal res, w') ∧ nullish res = true.

Definition silentAfter (hook : AfterCallback W) : Prop :=
  ∀ user ability result a w, ∃ res w',
    hook user ability result a w = (Normal res, w') ∧ nullish res = true.

Definition nullAfter (hook : AfterCallback W) : Prop :=
  ∀ user ability result a w, ∃ w',
    hook user ability result a w = (Normal RNull, w').

(** No policy answers for [ability] on the arguments [a]. *)
Definition noPolicyMethod (g : GateService W) (ability : string) (a : list value)
  : Prop :=
  truthy (first a) = true →
  ∀ p, getPolicyFor g (first a) = Normal (Some p) →
       p !! formatAbilityToMethod ability = None.

(** The type of a subject: the class of an instance, or the class
    that was passed. *)
Definition subjectType (subject : value) : option Class :=
  match subject with
  | VInst c _ => Some c
  | VClass c => Some c
  | _ => None
  end.

(** User code that never throws. *)
Definition totalCallback (f : AbilityCallback W) : Prop :=
  ∀ user a w, ∃ res w', f user a w = (Normal res, w').

Record totalGate (g : GateService W) : Prop := {
  total_before : ∀ hook, hook ∈ beforeCallbacks g →
    ∀ user ability a w, ∃ res w', hook user ability a w = (Normal res, w');
  total_after : ∀ hook, hook ∈ afterCallbacks g →
    ∀ user ability result a w, ∃ res w',
      hook user ability result a w = (Normal res, w');
  total_abilities : ∀ ability f, abilities g !! ability = Some f → totalCallback f;
  total_policies : ∀ c p method f,
    (c, p) ∈ policies g → p !! method = Some f → totalCallback f;
}.

(** The array a policy method receives: [args] without a leading class. *)
Definition shifted (a : list value) : list value :=
  if decide (typeof (first a) = TFunction) then tail a else a.

(** The call [policy[method](user, ...passed)] made from the store [s]
    when the world is [w] and the trace [tr]: the array of the store is
    [passed] by then. *)
Definition methodCall (meth : AbilityCallback W) (method : string)
    (user : value) (passed : list value) (s : store W) (w : W)
    (tr : list event) : completion Result * store W :=
  let '(r, w') := meth user passed w in
  (r, mkStore w' passed (rls s) (tr ++ [EvPolicyMethod method passed])).

(** The events a run added to the trace. *)
Definition newEvents (s s' : store W) : list event :=
  drop (length (trace s)) (trace s').

Definition isPolicyMethodCall (ev : event) : bool :=
  match ev with
  | EvPolicyMethod _ _ => true
  | _ => false
  end.

(** A run from [s] to [s'] that left the argument array alone and
    called no policy method. *)
Definition quiet (s s' : store W) : Prop :=
  args s' = args s
  ∧ ∃ evs, trace s' = trace s ++ evs
           ∧ existsb isPolicyMethodCall evs = false.

(** A run from [s] to [s'] in which the policy of [args[0]] answered
    [ability] by its method, called once, on the array as it is in [s']. *)
Definition viaPolicyMethod (g : GateService W) (ability : string)
    (s s' : store W) : Prop :=
  ∃ (p : PolicyMap W) (meth : AbilityCallback W) evs1 evs2,
    getPolicyFor g (first (args s)) = Normal (Some p)
    ∧ p !! formatAbilityToMethod ability = Some meth
    ∧ args s' = shifted (args s)
    ∧ trace s' = trace s ++ evs1
                   ++ EvPolicyMethod (formatAbilityToMethod ability) (args s')
                   :: evs2
    ∧ existsb isPolicyMethodCall evs1 = false
    ∧ existsb isPolicyMethodCall evs2 = false.

End Runs.

(** ** Concrete gates, for examples *)

Module Demo.

Definition Base : Class := Root "Base".
Definition Derived : Class := Extends "Derived" Base.
Definition Post : Class := Root "Post".

(** The world counts the calls of the callbacks that touch it. *)
Definition allowing : AbilityCallback nat :=
  fun _ _ w => (Normal (RBool true), S w).

Definition denyingHook : BeforeCallback nat :=
  fun _ _ _ w => (Normal (RBool false), w).

Definition silentHook : BeforeCallback nat :=
  fun _ _ _ w => (Normal RNull, w).

Definition loggingAfter : AfterCallback nat :=
  fun _ _ _ _ w => (Normal RUndefined, w).


Definition countingAfter : AfterCallback nat :=
  fun _ _ _ _ w => (Normal (RBool false), S w).

Definition start (a : list value) : store nat := mkStore 0 a None [].

(** [x] is allowed by its callback, behind a silent and a denying
    before-hook. *)
Definition guarded : GateService nat :=
  before denyingHook (before silentHook (define "x" allowing newGate)).


(** Only hooks that never decide. *)
Definition undecided : GateService nat :=
  after loggingAfter (before silentHook newGate).

Definition basePolicy : PolicyMap nat :=
  {[ "view" := (λ _ _ w, (Normal (RBool true), w)) ]}.

Definition derivedPolicy : PolicyMap nat :=
  {[ "view" := (λ _ _ w, (Normal (RBool false), w)) ]}.

(** A policy for [Base] only, and policies for [Base] and [Derived],
    the broader one registered first. *)
Definition withBase : GateService nat :=
  onApplicationBootstrap [(Direct Base, basePolicy)] newGate.

Definition withBoth : GateService nat :=
  onApplicationBootstrap
    [(Direct Base, basePolicy);
     (ForwardReference (λ _, Derived), derivedPolicy)] newGate.

(** A policy for [Post] whose [before] overrides and whose method
    leaves a mark in the world. *)
Definition overriding : AbilityCallback nat :=
  λ _ _ w, (Normal (RBool true), w).

Definition marking : AbilityCallback nat :=
  λ _ _ w, (Normal (RBool true), S w).

Definition overridingPolicy : PolicyMap nat :=
  <["before" := overriding]> {[ "createPost" := marking ]}.

Definition withOverride : GateService nat :=
  onApplicationBootstrap [(Direct Post, overridingPolicy)] newGate.

(** A policy for [Post] with two methods and no [before]. *)
Definition postPolicy : PolicyMap nat :=
  <["createPost" := marking]> {[ "deletePost" := marking ]}.

Definition withPost : GateService nat :=
  onApplicationBootstrap [(Direct Post, postPolicy)] newGate.

(** Abilities answered by a [GateResponse]: a denial as "not found",
    and a denial whose status was set to 0. *)
Definition notFound : GateResponse :=
  Response.denyAsNotFound (Some "gone") VNull.

Definition zeroStatus : GateResponse :=
  Response.withStatus (Some 0%Z) (Response.deny None VNull).

Definition answering (r : GateResponse) : AbilityCallback nat :=
  λ _ _ w, (Normal (RResponse r), w).

Definition responding : GateService nat :=
  define "z" (answering zeroStatus) (define "x" (answering notFound) newGate).

(** [define('x', (u) => !!u)] *)
Definition authenticated : GateService nat :=
  define "x" (λ user _ w, (Normal (RBool (truthy user)), w)) newGate.

End Demo.

(** ** Predicates for the properties of the whole service *)

(** No character of [s] is a hyphen, an underscore or white space. *)
Fixpoint sepFree (s : string) : bool :=
  match s with
  | EmptyString => true
  | String c r => negb (Str.isSep c) && sepFree r
  end.

Section Frames.

Context {W : Type}.

(** A computation that leaves the ambient storage as it found it and
    only adds to the trace, however it completes. *)
Definition framed {A} (m : M W A) : Prop :=
  ∀ s r s', m s = (r, s') → rls s' = rls s ∧ trace s `prefix_of` trace s'.


(** A result that is not a [GateResponse]. *)
Definition plain (result : Result) : bool :=
  match result with
  | RResponse _ => false
  | _ => true
  end.

End Frames.

(** ** More concrete gates *)

Module Cases.

Definition throwingHook : BeforeCallback nat :=
  λ _ _ _ w, (Throw (Raised (VStr "boom")), w).

(** [x] is allowed by its callback, behind a silent, a throwing and a
    denying before-hook, with an after-hook that would leave a mark. *)
Definition failing : GateService nat :=
  after Demo.countingAfter
    (before Demo.denyingHook
       (before throwingHook
          (before Demo.silentHook (define "x" Demo.allowing newGate)))).

Definition refusing : AbilityCallback nat :=
  λ _ _ w, (Normal (RBool false), S (S w)).

(** [x] defined twice, the second definition allowing. *)
Definition redefined : GateService nat :=
  define "x" Demo.allowing (define "x" refusing newGate).

(** The policy of [Demo.withPost], and a refusing callback defined for
    the ability that the policy answers. *)
Definition shadowed : GateService nat :=
  define "create-post" refusing Demo.withPost.

(** [x] allowed by its callback, between a before-hook and an after-hook
    that never decide. *)
Definition answered : GateService nat :=
  define "x" Demo.allowing Demo.undecided.

End Cases.

(** ** [formatAbilityToMethod] on any JavaScript string *)

(** A JavaScript string is a list of code units of some type [C].  The
    built-ins [toLowerCase] and [toUpperCase] and the class [\s] are those
    of the engine and are taken as given; [toUpperCase] may return more
    code units than it was given. *)
Module JsString.

Section Builtins.

Context {C : Type} `{EqDecision C}.
Variables (hyphen underscore : C).
Variable isWhiteSpace : C → bool.
Variables (toLowerCase toUpperCase : list C → list C).

(** [s.includes(c)] for a one-unit needle. *)
Definition includesUnit (c : C) (s : list C) : bool :=
  existsb (λ x, bool_decide (x = c)) s.

(** The class [[-_\s]]. *)
Definition isSplitUnit (c : C) : bool :=
  bool_decide (c = hyphen) || bool_decide (c = underscore) || isWhiteSpace c.

(** [s.split(/[-_\s]+/)], as [Str.splitGo]. *)
Fixpoint splitUnitsGo (inRun : bool) (cur : list C) (s : list C)
  : list (list C) :=
  match s with
  | [] => [rev_append cur []]
  | c :: r =>
      if isSplitUnit c then
        if inRun then splitUnitsGo true cur r
        else rev_append cur [] :: splitUnitsGo true [] r
      else splitUnitsGo false (c :: cur) r
  end.

Definition splitUnits (s : list C) : list (list C) := splitUnitsGo false [] s.

(** [formatAbilityToMethod], with [charAt(0)] as [take 1], [slice(1)] as
    [drop 1] and [join('')] as [concat]. *)
Definition formatUnits (ability : list C) : list C :=
  if includesUnit hyphen ability then
    concat
      (Str.mapIndex
         (λ word index,
            if (index =? 0)%nat then word
            else toUpperCase (take 1 word) ++ drop 1 word)
         (splitUnits (toLowerCase ability)))
  else ability.

(** The rule in words: the longest prefix free of separators and what
    follows it, a run of separators dropped, the words between runs. *)
Fixpoint leadingWord (s : list C) : list C * list C :=
  match s with
  | [] => ([], [])
  | c :: r =>
      if isSplitUnit c then ([], s)
      else let '(w, rest) := leadingWord r in (c :: w, rest)
  end.

Fixpoint dropRun (s : list C) : list C :=
  match s with
  | [] => []
  | c :: r => if isSplitUnit c then dropRun r else s
  end.

Fixpoint wordsOfFuel (fuel : nat) (s : list C) : list (list C) :=
  let '(w, rest) := leadingWord s in
  match rest with
  | [] => [w]
  | _ :: _ =>
      match fuel with
      | O => [w]
      | S fuel' => w :: wordsOfFuel fuel' (dropRun rest)
      end
  end.

Definition wordsOf (s : list C) : list (list C) := wordsOfFuel (length s) s.

(** A word capitalized at its first character. *)
Definition capitalizeUnits (w : list C) : list C :=
  toUpperCase (take 1 w) ++ drop 1 w.

Definition camelUnits (ws : list (list C)) : list C :=
  match ws with
  | [] => []
  | first :: others => first ++ concat (map capitalizeUnits others)
  end.

Definition methodNameUnits (ability : list C) : list C :=
  if includesUnit hyphen ability then camelUnits (wordsOf (toLowerCase ability))
  else ability.

End Builtins.

End JsString.

(** ** The ASCII letters and white space, as tables *)

Module AsciiTable.

Definition upperLetters : list ascii :=
  Strings.String.list_ascii_of_string "ABCDEFGHIJKLMNOPQRSTUVWXYZ".

Definition lowerLetters : list ascii :=
  Strings.String.list_ascii_of_string "abcdefghijklmnopqrstuvwxyz".

(** The character at the place of [c] in [to], when [c] occurs in [from]. *)
Fixpoint translate (from to : list ascii) (c : ascii) : ascii :=
  match from, to with
  | f :: from', t :: to' => if Ascii.eqb c f then t else translate from' to' c
  | _, _ => c
  end.

Definition lowerLetter (c : ascii) : ascii := translate upperLetters lowerLetters c.

Definition upperLetter (c : ascii) : ascii := translate lowerLetters upperLetters c.

(** Tab, line feed, vertical tab, form feed, carriage return, space. *)
Definition whiteSpace : list ascii :=
  [ascii_of_nat 9; ascii_of_nat 10; ascii_of_nat 11; ascii_of_nat 12;
   ascii_of_nat 13; ascii_of_nat 32].

Definition isWhite (c : ascii) : bool := existsb (Ascii.eqb c) whiteSpace.

(** The ASCII instance of the rule: the method name of a name given as
    a [string]. *)
Definition methodName (ability : string) : string :=
  Strings.String.string_of_list_ascii
    (JsString.methodNameUnits "-"%char "_"%char isWhite
       (map lowerLetter) (map upperLetter)
       (Strings.String.list_ascii_of_string ability)).

End AsciiTable.

(** ** The registry after bootstrap *)

Section Registry.

Context {W : Type}.


End Registry.

(** * Properties *)

(** ** Method names *)

Section MethodNames.

Import MethodNameRule.

Lemma skipRun_length (s : string) :
  String.length (skipRun s) ≤ String.length s.
Proof.
  induction s as [|c r IH]; simpl; [lia|].
  destruct (Str.isSep c); simpl; lia.
Qed.

Lemma word_rest_length (s : string) :
  String.length (word s).2 ≤ String.length s.
Proof.
  induction s as [|c r IH]; simpl; [lia|].
  destruct (Str.isSep c); simpl; [lia|].
  destruct (word r) as [w rest]; simpl in *; lia.
Qed.

Lemma word_rest_sep (s : string) (c : ascii) (r : string) :
  (word s).2 = String c r → Str.isSep c = true.
Proof.
  induction s as [|d t IH]; simpl; [discriminate|].
  destruct (Str.isSep d) eqn:Hd; simpl.
  - intros [= -> ->]. exact Hd.
  - destruct (word t) as [w rest]; simpl in *. exact IH.
Qed.

(** No word contains a separator. *)
Lemma word_no_sep (s : string) :
  Forall (λ c, Str.isSep c = false) (Strings.String.list_ascii_of_string (word s).1).
Proof.
  induction s as [|d t IH]; simpl; [constructor|].
  destruct (Str.isSep d) eqn:Hd; simpl; [constructor|].
  destruct (word t) as [w rest]; simpl in *. by constructor.
Qed.

(** Inside a run of separators the scanner only waits for its end. *)
Lemma splitGo_in_run (cur s : string) :
  Str.splitGo true cur s = Str.splitGo false cur (skipRun s).
Proof.
  induction s as [|c r IH]; simpl; [done|].
  destruct (Str.isSep c) eqn:Hc; simpl; [done|].
  by rewrite Hc.
Qed.

(** One step of the scanner, word by word. *)
Lemma splitGo_word (cur s : string) :
  Str.splitGo false cur s =
    match (word s).2 with
    | EmptyString => [String.rev_app cur (word s).1]
    | String _ _ =>
        String.rev_app cur (word s).1
          :: Str.splitGo false EmptyString (skipRun (word s).2)
    end.
Proof.
  revert cur. induction s as [|c r IH]; intros cur; simpl; [done|].
  destruct (Str.isSep c) eqn:Hc; simpl.
  - rewrite Hc. by rewrite splitGo_in_run.
  - rewrite IH. destruct (word r) as [w rest]; simpl. by destruct rest.
Qed.

Lemma split_wordsFuel (fuel : nat) (s : string) :
  String.length s ≤ fuel → Str.split s = wordsFuel fuel s.
Proof.
  unfold Str.split. revert s.
  induction fuel as [|fuel IH]; intros s Hlen.
  - destruct s; simpl in *; [done | lia].
  - rewrite splitGo_word. simpl.
    pose proof (word_rest_length s) as Hrest.
    destruct (word s) as [w rest] eqn:Hw; simpl in *.
    destruct rest as [|c r]; [done|].
    f_equal. apply IH.
    assert (Str.isSep c = true) as Hc.
    { apply (word_rest_sep s c r). by rewrite Hw. }
    simpl. rewrite Hc.
    pose proof (skipRun_length r). simpl in Hrest. lia.
Qed.

Lemma split_words (s : string) : Str.split s = words s.
Proof. by apply split_wordsFuel. Qed.

Lemma capitalize_charAt_slice (w : string) :
  Str.toUpperCase (Str.charAt0 w) +:+ Str.slice1 w = capitalize w.
Proof. by destruct w. Qed.

Lemma mapIndexFrom_capitalize (i : nat) (ws : list string) :
  Str.mapIndexFrom
    (λ word index,
       if (index =? 0)%nat then word
       else Str.toUpperCase (Str.charAt0 word) +:+ Str.slice1 word)
    (S i) ws
  = map capitalize ws.
Proof.
  revert i. induction ws as [|w ws IH]; intros i; simpl; [done|].
  by rewrite capitalize_charAt_slice, IH.
Qed.

End MethodNames.

(** C8. A name whose words are separated by white space only is not
    folded: [create post] stays [create post], it does not become
    [createPost]. *)
Theorem C8_whitespace_name_kept :
  formatAbilityToMethod "create post" = "create post"
  ∧ formatAbilityToMethod "create post" ≠ "createPost"
  ∧ formatAbilityToMethod "create-post" = "createPost".
Proof. by repeat split. Qed.

(** ** The hook pipeline *)

Ltac run_step :=
  unfold bind, ret, lift, throw, getArgs, shiftArgs, invoke, resolveUser; simpl.

Section Hooks.

Context {W : Type}.
Implicit Types (g : GateService W) (s : store W) (user : value)
  (ability : string) (w : W).

Lemma bind_normal {A B} (m : M W A) (k : A → M W B) s a s' :
  m s = (Normal a, s') → bind m k s = k a s'.
Proof. unfold bind. by intros ->. Qed.

Lemma bind_throw {A B} (m : M W A) (k : A → M W B) s e s' :
  m s = (Throw e, s') → bind m k s = (Throw e, s').
Proof. unfold bind. by intros ->. Qed.

(** Before-hooks that all pass leave [null] and one event each. *)
Lemma callBeforeFrom_pass (hooks : list (BeforeCallback W)) :
  ∀ index user ability s w1,
    beforePass hooks user ability (args s) (world s) = Some w1 →
    callBeforeFrom index hooks user ability s
    = (Normal RNull,
       mkStore w1 (args s) (rls s)
         (trace s ++ map EvBefore (seq index (length hooks)))).
Proof.
  induction hooks as [|hook hooks IH]; intros index user ability s w1; simpl.
  - intros [= <-]. run_step. rewrite app_nil_r. by destruct s.
  - run_step.
    destruct (hook user ability (args s) (world s)) as [[res|e] w'] eqn:Hh;
      [|done].
    destruct (nullish res) eqn:Hres; [|done].
    intros Hpass. rewrite (IH (S index) user ability _ w1); [|done].
    simpl. by rewrite <- app_assoc.
Qed.

(** The first before-hook that decides ends the loop. *)
Lemma callBeforeFrom_decides (pre : list (BeforeCallback W)) :
  ∀ hook post index user ability s w1 w2 v,
    beforePass pre user ability (args s) (world s) = Some w1 →
    hook user ability (args s) w1 = (Normal v, w2) →
    nullish v = false →
    callBeforeFrom index (pre ++ hook :: post) user ability s
    = (Normal v,
       mkStore w2 (args s) (rls s)
         (trace s ++ map EvBefore (seq index (S (length pre))))).
Proof.
  induction pre as [|h0 pre IH];
    intros hook post index user ability s w1 w2 v; simpl.
  - intros [= <-] Hh Hv. run_step. by rewrite Hh, Hv.
  - run_step.
    destruct (h0 user ability (args s) (world s)) as [[res|e] w'] eqn:Hh0;
      [|done].
    destruct (nullish res) eqn:Hres; [|done].
    intros Hpass Hh Hv.
    rewrite (IH hook post (S index) user ability _ w1 w2 v); [|done..].
    simpl. by rewrite <- app_assoc.
Qed.

(** A result that is neither [null] nor [undefined] goes through the
    after-hooks untouched, and none of them is called. *)
Lemma callAfterFrom_fixed (hooks : list (AfterCallback W)) :
  ∀ index user ability result s,
    nullish result = false →
    callAfterFrom index hooks user ability result s = (Normal result, s).
Proof.
  induction hooks as [|hook hooks IH]; intros index user ability result s Hr;
    simpl; [done|].
  rewrite Hr. run_step. by apply IH.
Qed.

Lemma callAfterFrom_pass (hooks : list (AfterCallback W)) :
  ∀ index user ability result s r1 w1,
    nullish result = true →
    afterPass hooks user ability result (args s) (world s) = Some (r1, w1) →
    callAfterFrom index hooks user ability result s
    = (Normal r1,
       mkStore w1 (args s) (rls s)
         (trace s ++ map EvAfter (seq index (length hooks))))
    ∧ nullish r1 = true.
Proof.
  induction hooks as [|hook hooks IH];
    intros index user ability result s r1 w1 Hr; simpl.
  - intros [= <- <-]. run_step. rewrite app_nil_r. by destruct s.
  - rewrite Hr. run_step.
    destruct (hook user ability result (args s) (world s))
      as [[res|e] w'] eqn:Hh; [|done].
    destruct (nullish res) eqn:Hres; [|done].
    intros Hpass.
    destruct (IH (S index) user ability res
                (mkStore w' (args s) (rls s) (trace s ++ [EvAfter index]))
                r1 w1 Hres Hpass) as [-> ?].
    simpl. by rewrite <- app_assoc.
Qed.


Lemma raw_primary g ability s :
  raw g ability s
  = bind (primary g (default VUndefined (rls s)) ability)
      (callAfterCallbacks g (default VUndefined (rls s)) ability) s.
Proof. done. Qed.

(** Once the before-hooks or the resolved callback have decided, [raw]
    returns their result and the store they left. *)
Lemma raw_decided g ability s result s' :
  primary g (default VUndefined (rls s)) ability s = (Normal result, s') →
  nullish result = false →
  raw g ability s = (Normal result, s').
Proof.
  intros Hp Hr. rewrite raw_primary, (bind_normal _ _ _ _ _ Hp).
  by apply callAfterFrom_fixed.
Qed.

Lemma inspect_raw g ability s result s' :
  raw g ability s = (Normal result, s') →
  inspect g ability s = (Normal (coerce result), s').
Proof. intros Hraw. unfold inspect. by rewrite (bind_normal _ _ _ _ _ Hraw). Qed.

Lemma check_one g ability s result s' :
  raw g ability s = (Normal result, s') →
  check g (One ability) s = (Normal (allowed (coerce result)), s').
Proof.
  intros Hraw. unfold check. simpl.
  rewrite (bind_normal _ _ _ _ _ (inspect_raw _ _ _ _ _ Hraw)).
  by destruct (allowed (coerce result)).
Qed.

End Hooks.

(** C1. The before-hooks run in the order of their registration, and the
    first one whose result is neither [null] nor [undefined] ends the
    pipeline: the trace holds the before-hooks up to that one, in order,
    and nothing else (no later before-hook, no ability callback, no policy
    method, no after-hook), and [raw] returns that result.  When the result
    is [false], [allows] is false whatever callback is defined for the
    ability. *)
Theorem C1_before_hook_short_circuits {W : Type} (g : GateService W)
    (ability : string) (s : store W)
    (pre post : list (BeforeCallback W)) (hook : BeforeCallback W)
    (v : Result) (w1 w2 : W) :
  let user := default VUndefined (rls s) in
  let s' := mkStore w2 (args s) (rls s)
              (trace s ++ map EvBefore (seq 0 (S (length pre)))) in
  beforeCallbacks g = pre ++ hook :: post →
  beforePass pre user ability (args s) (world s) = Some w1 →
  hook user ability (args s) w1 = (Normal v, w2) →
  nullish v = false →
  callBeforeCallbacks g user ability s = (Normal v, s')
  ∧ raw g ability s = (Normal v, s')
  ∧ allows g (One ability) s = (Normal (allowed (coerce v)), s')
  ∧ (v = RBool false → allows g (One ability) s = (Normal false, s')).
Proof.
  intros user s' Hhooks Hpass Hhook Hv.
  assert (callBeforeCallbacks g user ability s = (Normal v, s')) as Hb.
  { unfold callBeforeCallbacks. rewrite Hhooks.
    by apply (callBeforeFrom_decides pre hook post 0 user ability s w1 w2 v). }
  assert (raw g ability s = (Normal v, s')) as Hraw.
  { apply raw_decided; [|done]. unfold primary.
    rewrite (bind_normal _ _ _ _ _ Hb). by rewrite Hv. }
  pose proof (check_one g ability s v s' Hraw) as Hc.
  repeat split; [done..|]. by intros ->.
Qed.


Lemma C1_witness :
  raw Demo.guarded "x" (Demo.start [])
  = (Normal (RBool false), mkStore 0 [] None [EvBefore 0; EvBefore 1])
  ∧ allows Demo.guarded (One "x") (Demo.start [])
    = (Normal false, mkStore 0 [] None [EvBefore 0; EvBefore 1]).
Proof.
  destruct (C1_before_hook_short_circuits Demo.guarded "x" (Demo.start [])
              [Demo.silentHook] [] Demo.denyingHook (RBool false) 0 0)
    as (_ & Hraw & _ & Hallows); [reflexivity..|].
  split; [exact Hraw | exact (Hallows eq_refl)].
Defined.


(** ** Unresolvable abilities *)

Section Unresolved.

Context {W : Type}.
Implicit Types (g : GateService W) (s : store W) (user : value)
  (ability : string) (w : W).

Lemma getPolicyFor_truthy g (x : value) :
  truthy x = true → ∃ o, getPolicyFor g x = Normal o.
Proof.
  intros Hx. unfold getPolicyFor.
  destruct x; simpl in *; try done; try (by eexists);
    match goal with
    | |- context [mapGet ?c ?m] => destruct (mapGet c m); by eexists
    end.
Qed.

Lemma silent_beforePass (hooks : list (BeforeCallback W)) user ability a w :
  Forall silentBefore hooks →
  ∃ w1, beforePass hooks user ability a w = Some w1.
Proof.
  intros Hall. revert w.
  induction Hall as [|hook hooks Hh _ IH]; intros w; simpl; [by eexists|].
  destruct (Hh user ability a w) as (res & w' & -> & ->). apply IH.
Qed.

Lemma silent_afterPass (hooks : list (AfterCallback W)) user ability result a w :
  Forall silentAfter hooks →
  ∃ r1 w1, afterPass hooks user ability result a w = Some (r1, w1)
           ∧ (Forall nullAfter hooks → result = RNull → r1 = RNull).
Proof.
  intros Hall. revert result w.
  induction Hall as [|hook hooks Hh _ IH]; intros result w; simpl.
  { by eexists _, _. }
  destruct (Hh user ability result a w) as (res & w' & Hcall & Hres).
  rewrite Hcall, Hres.
  destruct (IH res w') as (r1 & w1 & Hpass & Hnull).
  exists r1, w1. split; [done|].
  intros Hnulls _. apply Forall_cons in Hnulls as [Hn Hnulls].
  apply Hnull; [done|].
  destruct (Hn user ability result a w) as (w'' & Hcall').
  rewrite Hcall in Hcall'. by injection Hcall'.
Qed.

(** With no policy method and no defined callback, the resolved
    callback is the one that returns [null]; nothing is called. *)
Lemma callAuthCallback_default g user ability s :
  abilities g !! ability = None →
  noPolicyMethod g ability (args s) →
  callAuthCallback g user ability s = (Normal RNull, s).
Proof.
  intros Hab Hpol. unfold callAuthCallback, resolveAuthCallback.
  run_step. unfold noPolicyMethod in Hpol.
  destruct (truthy (first (args s))) eqn:Ht; simpl.
  - destruct (getPolicyFor_truthy g _ Ht) as [o Ho].
    run_step. rewrite Ho.
    destruct o as [p|]; simpl.
    + unfold resolvePolicyCallback. rewrite (Hpol eq_refl p Ho).
      by rewrite Hab.
    + by rewrite Hab.
  - by rewrite Hab.
Qed.

End Unresolved.

(** C3. An ability with no defined callback and no policy method for the
    given arguments, checked while no before-hook and no after-hook
    decides: [raw] returns without throwing a result that is [null] or
    [undefined] (and [null] itself when the after-hooks return [null]);
    [check] is false; every hook has run once and nothing else has. *)
Theorem C3_unresolvable_ability_denied {W : Type} (g : GateService W)
    (ability : string) (s : store W) :
  abilities g !! ability = None →
  noPolicyMethod g ability (args s) →
  Forall silentBefore (beforeCallbacks g) →
  Forall silentAfter (afterCallbacks g) →
  ∃ (result : Result) (w' : W),
    let s' := mkStore w' (args s) (rls s)
                ((trace s ++ map EvBefore (seq 0 (length (beforeCallbacks g))))
                 ++ map EvAfter (seq 0 (length (afterCallbacks g)))) in
    raw g ability s = (Normal result, s')
    ∧ nullish result = true
    ∧ (Forall nullAfter (afterCallbacks g) → result = RNull)
    ∧ check g (One ability) s = (Normal false, s').
Proof.
  intros Hab Hpol Hbefore Hafter.
  set (user := default VUndefined (rls s)).
  destruct (silent_beforePass _ user ability (args s) (world s) Hbefore)
    as [w1 Hpass1].
  pose proof (callBeforeFrom_pass _ 0 user ability s w1 Hpass1) as Hb.
  set (s1 := mkStore w1 (args s) (rls s)
               (trace s ++ map EvBefore (seq 0 (length (beforeCallbacks g))))) in *.
  assert (primary g user ability s = (Normal RNull, s1)) as Hprim.
  { unfold primary, callBeforeCallbacks. rewrite (bind_normal _ _ _ _ _ Hb).
    simpl. by apply callAuthCallback_default. }
  destruct (silent_afterPass _ user ability RNull (args s1) (world s1) Hafter)
    as (r1 & w2 & Hpass2 & Hnull).
  destruct (callAfterFrom_pass _ 0 user ability RNull s1 r1 w2 eq_refl Hpass2)
    as [Ha Hr1].
  exists r1, w2. simpl.
  assert (raw g ability s
          = (Normal r1,
             mkStore w2 (args s) (rls s)
               ((trace s ++ map EvBefore (seq 0 (length (beforeCallbacks g))))
                ++ map EvAfter (seq 0 (length (afterCallbacks g)))))) as Hraw.
  { rewrite raw_primary. fold user. by rewrite (bind_normal _ _ _ _ _ Hprim). }
  repeat split; [done..|auto|].
  rewrite (check_one _ _ _ _ _ Hraw). by destruct r1.
Qed.

Lemma C3_witness :
  raw Demo.undecided "x" (Demo.start [VNum 7])
  = (Normal RUndefined, mkStore 0 [VNum 7] None [EvBefore 0; EvAfter 0])
  ∧ check Demo.undecided (One "x") (Demo.start [VNum 7])
    = (Normal false, mkStore 0 [VNum 7] None [EvBefore 0; EvAfter 0]).
Proof.
  destruct (C3_unresolvable_ability_denied Demo.undecided "x"
              (Demo.start [VNum 7]))
    as (result & w' & Hraw & _ & _ & Hcheck).
  - reflexivity.
  - intros _ p [=].
  - repeat constructor. intros ? ? ? w. by exists RNull, w.
  - repeat constructor. intros ? ? ? ? w. by exists RUndefined, w.
  - assert (raw Demo.undecided "x" (Demo.start [VNum 7])
            = (Normal RUndefined, mkStore 0 [VNum 7] None [EvBefore 0; EvAfter 0]))
      as Hrun by reflexivity.
    rewrite Hrun in Hraw. injection Hraw as <- <-.
    split; [exact Hrun | exact Hcheck].
Defined.

(** ** Policy lookup *)

Section PolicyLookup.

Context {W : Type}.
Implicit Types (g : GateService W) (m : list (Class * PolicyMap W)).

Lemma mapGet_mapSet_eq (k : Class) (v : PolicyMap W) m :
  mapGet k (mapSet k v m) = Some v.
Proof.
  induction m as [|[k' v'] m IH]; simpl.
  - by rewrite decide_True.
  - destruct (decide (k = k')) as [->|Hne]; simpl.
    + by rewrite decide_True.
    + by rewrite decide_False.
Qed.

Lemma mapGet_mapSet_ne (k k' : Class) (v : PolicyMap W) m :
  k ≠ k' → mapGet k' (mapSet k v m) = mapGet k' m.
Proof.
  intros Hne. induction m as [|[k0 v0] m IH]; simpl.
  - by rewrite decide_False.
  - destruct (decide (k = k0)) as [->|Hne0]; simpl.
    + by rewrite !decide_False.
    + by rewrite IH.
Qed.

Lemma mapGet_None (c : Class) m :
  mapGet c m = None → ∀ e, e ∈ m → e.1 ≠ c.
Proof.
  induction m as [|[k v] m IH]; simpl; intros Hget e He.
  - by apply elem_of_nil in He.
  - destruct (decide (c = k)) as [->|Hne]; [done|].
    apply elem_of_cons in He as [->|He]; [by simpl | by apply IH].
Qed.

(** When the class of an instance has no policy of its own, scanning
    with the instance finds what scanning with the prototype finds:
    the proper ancestors. *)
Lemma scanPolicies_instance (c : Class) (ref : Z) m :
  mapGet c m = None →
  scanPolicies (VInst c ref) m = scanPolicies (VPrototype c) m.
Proof.
  induction m as [|[k v] m IH]; simpl; [done|].
  destruct (decide (c = k)) as [->|Hne]; [done|].
  intros Hget. rewrite (bool_decide_eq_false_2 (k = c)); [|done].
  simpl. by rewrite IH.
Qed.

Lemma scanPolicies_first (c t : Class) (p : PolicyMap W) l1 l2 :
  (∀ e, e ∈ l1 → e.1 ∉ ancestors c) →
  t ∈ ancestors c →
  scanPolicies (VPrototype c) (l1 ++ (t, p) :: l2) = Some p.
Proof.
  intros Hl1 Ht. induction l1 as [|[k v] l1 IH]; simpl.
  - by rewrite bool_decide_eq_true_2.
  - rewrite bool_decide_eq_false_2.
    + apply IH. intros e He. apply Hl1. by right.
    + apply (Hl1 (k, v)). by left.
Qed.

Lemma scanPolicies_none (c : Class) m :
  (∀ e, e ∈ m → e.1 ∉ ancestors c) →
  scanPolicies (VPrototype c) m = None.
Proof.
  intros Hm. induction m as [|[k v] m IH]; simpl; [done|].
  rewrite bool_decide_eq_false_2.
  - apply IH. intros e He. apply Hm. by right.
  - apply (Hm (k, v)). by left.
Qed.

(** What [getPolicyFor] computes on a subject of type [c]. *)
Lemma getPolicyFor_subject g (subject : value) (c : Class) :
  subjectType subject = Some c →
  getPolicyFor g subject
  = Normal (match mapGet c (policies g) with
            | Some p => Some p
            | None => scanPolicies (VPrototype c) (policies g)
            end).
Proof.
  destruct subject; simpl; try done; intros [= ->]; unfold getPolicyFor; simpl.
  - destruct (mapGet c (policies g)) eqn:Hget; [done|].
    by rewrite scanPolicies_instance.
  - by destruct (mapGet c (policies g)).
Qed.

(** A policy that the lookup returns is one of the registered ones. *)
Lemma mapGet_elem (c : Class) (p : PolicyMap W) m :
  mapGet c m = Some p → (c, p) ∈ m.
Proof.
  induction m as [|[k v] m IH]; simpl; [done|].
  destruct (decide (c = k)) as [->|Hne].
  - intros [= ->]. by left.
  - intros Hget. right. by apply IH.
Qed.

Lemma scanPolicies_elem (proto : value) (p : PolicyMap W) m :
  scanPolicies proto m = Some p → ∃ t, (t, p) ∈ m.
Proof.
  induction m as [|[k v] m IH]; simpl; [done|].
  destruct (instanceOf proto k).
  - intros [= ->]. exists k. by left.
  - intros Hscan. destruct (IH Hscan) as [t Ht]. exists t. by right.
Qed.

Lemma getPolicyFor_registered g (x : value) (p : PolicyMap W) :
  getPolicyFor g x = Normal (Some p) → ∃ t, (t, p) ∈ policies g.
Proof.
  unfold getPolicyFor.
  destruct (if decide (typeof x = TObject) then constructorOf x else Normal x)
    as [target|e]; [|done].
  destruct (mapGetValue target (policies g)) as [q|] eqn:Hget.
  - intros [= ->]. destruct target; simpl in Hget; try done.
    exists c. by apply mapGet_elem.
  - destruct (if decide (typeof x = TObject) then Normal x else prototypeOf x)
      as [proto|e]; [|done].
    intros [= Hscan]. by apply (scanPolicies_elem proto).
Qed.

End PolicyLookup.

(** C4. For a subject of type [c] (an instance of [c], or [c] itself):
    the policy registered for [c] is returned when there is one, whatever
    else is registered; otherwise the policy of the first registered pair
    whose type is an ancestor of [c]; otherwise the lookup answers "none".
    It never throws. *)
Theorem C4_policy_lookup_order {W : Type} (g : GateService W)
    (subject : value) (c : Class) :
  subjectType subject = Some c →
  (∀ p, mapGet c (policies g) = Some p →
        getPolicyFor g subject = Normal (Some p))
  ∧ (mapGet c (policies g) = None →
     ∀ l1 t p l2,
       policies g = l1 ++ (t, p) :: l2 →
       t ∈ ancestors c →
       (∀ e, e ∈ l1 → e.1 ∉ ancestors c) →
       getPolicyFor g subject = Normal (Some p))
  ∧ (mapGet c (policies g) = None →
     (∀ e, e ∈ policies g → e.1 ∉ ancestors c) →
     getPolicyFor g subject = Normal None)
  ∧ (∃ o, getPolicyFor g subject = Normal o).
Proof.
  intros Hc. rewrite (getPolicyFor_subject g subject c Hc).
  repeat split.
  - by intros p ->.
  - intros -> l1 t p l2 -> Ht Hl1. by rewrite scanPolicies_first.
  - intros -> Hnone. by rewrite scanPolicies_none.
  - by eexists.
Qed.

Lemma C4_witness :
  getPolicyFor Demo.withBoth (VInst Demo.Derived 1) = Normal (Some Demo.derivedPolicy)
  ∧ getPolicyFor Demo.withBase (VInst Demo.Derived 1) = Normal (Some Demo.basePolicy)
  ∧ getPolicyFor Demo.withBase (VClass Demo.Derived) = Normal (Some Demo.basePolicy)
  ∧ getPolicyFor Demo.withBase (VClass Demo.Post) = Normal None.
Proof.
  destruct (C4_policy_lookup_order Demo.withBoth (VInst Demo.Derived 1)
              Demo.Derived eq_refl) as (Hexact & _).
  destruct (C4_policy_lookup_order Demo.withBase (VInst Demo.Derived 1)
              Demo.Derived eq_refl) as (_ & Hinstance & _).
  destruct (C4_policy_lookup_order Demo.withBase (VClass Demo.Derived)
              Demo.Derived eq_refl) as (_ & Hclass & _).
  destruct (C4_policy_lookup_order Demo.withBase (VClass Demo.Post)
              Demo.Post eq_refl) as (_ & _ & Hnone & _).
  split; [|split; [|split]].
  - apply Hexact. reflexivity.
  - apply (Hinstance eq_refl [] Demo.Base Demo.basePolicy []);
      [reflexivity | by left | by intros e ?%elem_of_nil].
  - apply (Hclass eq_refl [] Demo.Base Demo.basePolicy []);
      [reflexivity | by left | by intros e ?%elem_of_nil].
  - apply (Hnone eq_refl).
    intros e He. apply list_elem_of_singleton in He as ->. simpl.
    by intros ?%elem_of_nil.
Defined.

(** ** Policy callbacks *)

Section PolicyCallbacks.

Context {W : Type}.
Implicit Types (g : GateService W) (s : store W) (user : value)
  (ability method : string) (w : W) (p : PolicyMap W).

Lemma callPolicyMethod_run p method user s (meth : AbilityCallback W) :
  p !! method = Some meth →
  callPolicyMethod p method user s
  = methodCall meth method user (shifted (args s)) s (world s) (trace s).
Proof.
  intros Hm. unfold callPolicyMethod, methodCall, shifted. run_step.
  destruct (decide (typeof (first (args s)) = TFunction)); simpl;
    rewrite Hm; run_step; by destruct (meth _ _ _).
Qed.

Lemma callPolicyBefore_absent p user ability s :
  p !! "before" = None →
  callPolicyBefore p user ability s = (Normal RUndefined, s).
Proof. unfold callPolicyBefore. by intros ->. Qed.

Lemma callPolicyBefore_present p user ability s (bf : AbilityCallback W) r w' :
  p !! "before" = Some bf →
  bf user (VStr ability :: args s) (world s) = (r, w') →
  callPolicyBefore p user ability s
  = (r, mkStore w' (args s) (rls s)
          (trace s ++ [EvPolicyBefore (VStr ability :: args s)])).
Proof.
  unfold callPolicyBefore. intros -> Hbf. run_step. by rewrite Hbf.
Qed.

(** The resolved callback when a policy answers. *)
Lemma callAuthCallback_policy g user ability s p (meth : AbilityCallback W) :
  truthy (first (args s)) = true →
  getPolicyFor g (first (args s)) = Normal (Some p) →
  p !! formatAbilityToMethod ability = Some meth →
  callAuthCallback g user ability s
  = bind (callPolicyBefore p user ability)
      (λ r, if nullish r
            then callPolicyMethod p (formatAbilityToMethod ability) user
            else ret r) s.
Proof.
  intros Ht Hp Hm. unfold callAuthCallback, resolveAuthCallback.
  run_step. rewrite Ht. run_step. rewrite Hp. simpl.
  unfold resolvePolicyCallback. by rewrite Hm.
Qed.

End PolicyCallbacks.

(** C5. When [args[0]] has a policy whose method for the ability is
    callable: if the policy has a [before] and it returns a result that is
    neither [null] nor [undefined], that result is the outcome of the
    resolved callback, and the trace shows the call of [before] and no
    call of the method; if the policy has no [before], or [before] returns
    [null] or [undefined], the method is called, on the arguments without
    their leading element when that element is a class. *)
Theorem C5_policy_before_short_circuits {W : Type} (g : GateService W)
    (user : value) (ability : string) (s : store W)
    (x : value) (rest : list value)
    (p : PolicyMap W) (meth : AbilityCallback W) :
  let method := formatAbilityToMethod ability in
  let passed := if decide (typeof x = TFunction) then rest else x :: rest in
  let beforeEvent := EvPolicyBefore (VStr ability :: args s) in
  args s = x :: rest →
  truthy x = true →
  getPolicyFor g x = Normal (Some p) →
  p !! method = Some meth →
  (∀ (bf : AbilityCallback W) v w',
     p !! "before" = Some bf →
     bf user (VStr ability :: args s) (world s) = (Normal v, w') →
     nullish v = false →
     callAuthCallback g user ability s
     = (Normal v, mkStore w' (args s) (rls s) (trace s ++ [beforeEvent])))
  ∧ (p !! "before" = None →
     callAuthCallback g user ability s
     = methodCall meth method user passed s (world s) (trace s))
  ∧ (∀ (bf : AbilityCallback W) v w',
       p !! "before" = Some bf →
       bf user (VStr ability :: args s) (world s) = (Normal v, w') →
       nullish v = true →
       callAuthCallback g user ability s
       = methodCall meth method user passed s w' (trace s ++ [beforeEvent])).
Proof.
  intros method passed beforeEvent Hargs Ht Hp Hm.
  assert (first (args s) = x) as Hfirst by by rewrite Hargs.
  assert (shifted (args s) = passed) as Hshift.
  { unfold shifted, passed. by rewrite Hargs. }
  rewrite (callAuthCallback_policy g user ability s p meth);
    [|by rewrite Hfirst..|done].
  fold method. repeat split.
  - intros bf v w' Hbf Hcall Hv.
    rewrite (bind_normal _ _ _ _ _
               (callPolicyBefore_present p user ability s bf _ _ Hbf Hcall)).
    by rewrite Hv.
  - intros Hbf.
    rewrite (bind_normal _ _ _ _ _ (callPolicyBefore_absent p user ability s Hbf)).
    simpl. by rewrite (callPolicyMethod_run p method user s meth Hm), Hshift.
  - intros bf v w' Hbf Hcall Hv.
    rewrite (bind_normal _ _ _ _ _
               (callPolicyBefore_present p user ability s bf _ _ Hbf Hcall)).
    rewrite Hv.
    rewrite (callPolicyMethod_run p method user _ meth Hm). simpl.
    by rewrite Hshift.
Qed.

Lemma C5_witness :
  callAuthCallback Demo.withOverride VUndefined "create-post"
    (Demo.start [VInst Demo.Post 1])
  = (Normal (RBool true),
     mkStore 0 [VInst Demo.Post 1] None
       [EvPolicyBefore [VStr "create-post"; VInst Demo.Post 1]])
  ∧ callAuthCallback Demo.withPost VUndefined "create-post"
      (Demo.start [VClass Demo.Post; VNum 3])
    = (Normal (RBool true),
       mkStore 1 [VNum 3] None [EvPolicyMethod "createPost" [VNum 3]]).
Proof.
  destruct (C5_policy_before_short_circuits Demo.withOverride VUndefined
              "create-post" (Demo.start [VInst Demo.Post 1])
              (VInst Demo.Post 1) [] Demo.overridingPolicy Demo.marking)
    as (Hdecides & _); [reflexivity..|].
  destruct (C5_policy_before_short_circuits Demo.withPost VUndefined
              "create-post" (Demo.start [VClass Demo.Post; VNum 3])
              (VClass Demo.Post) [VNum 3] Demo.postPolicy Demo.marking)
    as (_ & Habsent & _); [reflexivity..|].
  split.
  - apply (Hdecides Demo.overriding (RBool true) 0); reflexivity.
  - apply Habsent. reflexivity.
Defined.

(** ** The argument array *)

Section Frame.

Context {W : Type}.
Implicit Types (g : GateService W) (s : store W) (user : value)
  (ability method : string) (w : W) (p : PolicyMap W).

Lemma quiet_refl s : quiet s s.
Proof. split; [done|]. exists []. by rewrite app_nil_r. Qed.

Lemma quiet_trans s1 s2 s3 : quiet s1 s2 → quiet s2 s3 → quiet s1 s3.
Proof.
  intros (Ha1 & evs1 & Ht1 & He1) (Ha2 & evs2 & Ht2 & He2).
  split; [congruence|]. exists (evs1 ++ evs2).
  rewrite Ht2, Ht1, <- app_assoc, existsb_app, He1, He2. done.
Qed.

Lemma quiet_invoke {A} (ev : event) (f : W → completion A * W) s r s' :
  isPolicyMethodCall ev = false →
  invoke ev f s = (r, s') → quiet s s'.
Proof.
  intros Hev. unfold invoke. destruct (f (world s)) as [r0 w'].
  intros [= _ <-]. split; [done|]. exists [ev]. simpl. by rewrite Hev.
Qed.

Lemma callBeforeFrom_quiet (hooks : list (BeforeCallback W)) :
  ∀ index user ability s r s',
    callBeforeFrom index hooks user ability s = (r, s') → quiet s s'.
Proof.
  induction hooks as [|hook hooks IH]; intros index user ability s r s'; simpl.
  - intros [= _ <-]. apply quiet_refl.
  - unfold bind at 1. simpl. unfold bind.
    destruct (invoke (EvBefore index) (hook user ability (args s)) s)
      as [[res|e] s1] eqn:Hinv; apply quiet_invoke in Hinv; try done.
    + destruct (nullish res).
      * intros Hrest. eapply quiet_trans; [done|]. by eapply IH.
      * by intros [= _ <-].
    + by intros [= _ <-].
Qed.

Lemma callAfterFrom_quiet (hooks : list (AfterCallback W)) :
  ∀ index user ability result s r s',
    callAfterFrom index hooks user ability result s = (r, s') → quiet s s'.
Proof.
  induction hooks as [|hook hooks IH];
    intros index user ability result s r s'; simpl.
  - intros [= _ <-]. apply quiet_refl.
  - destruct (nullish result).
    + unfold bind at 1. unfold bind at 1. simpl.
      destruct (invoke (EvAfter index) (hook user ability result (args s)) s)
        as [[res|e] s1] eqn:Hinv; apply quiet_invoke in Hinv; try done.
      * intros Hrest. eapply quiet_trans; [done|]. by eapply IH.
      * by intros [= _ <-].
    + unfold bind at 1. simpl. by apply IH.
Qed.

Lemma quiet_via g ability s1 s2 s3 :
  quiet s1 s2 → viaPolicyMethod g ability s2 s3 → viaPolicyMethod g ability s1 s3.
Proof.
  intros (Ha & evs & Ht & He) (p & meth & evs1 & evs2 & Hp & Hm & Hs & Htr & He1 & He2).
  exists p, meth, (evs ++ evs1), evs2. rewrite <- Ha.
  repeat split; try done.
  - rewrite Htr, Ht. by rewrite <- !app_assoc.
  - by rewrite existsb_app, He, He1.
Qed.

Lemma via_quiet g ability s1 s2 s3 :
  viaPolicyMethod g ability s1 s2 → quiet s2 s3 → viaPolicyMethod g ability s1 s3.
Proof.
  intros (p & meth & evs1 & evs2 & Hp & Hm & Hs & Htr & He1 & He2) (Ha & evs & Ht & He).
  exists p, meth, evs1, (evs2 ++ evs). rewrite Ha.
  repeat split; try done.
  - rewrite Ht, Htr. rewrite <- !app_assoc. done.
  - by rewrite existsb_app, He2, He.
Qed.

Lemma methodCall_via g ability user s0 s (meth : AbilityCallback W) p r s' :
  getPolicyFor g (first (args s0)) = Normal (Some p) →
  p !! formatAbilityToMethod ability = Some meth →
  quiet s0 s →
  methodCall meth (formatAbilityToMethod ability) user (shifted (args s)) s
    (world s) (trace s) = (r, s') →
  viaPolicyMethod g ability s0 s'.
Proof.
  intros Hp Hm Hq. unfold methodCall.
  destruct (meth user (shifted (args s)) (world s)) as [r0 w'].
  intros [= _ <-]. apply (quiet_via g ability s0 s); [done|].
  destruct Hq as [Ha _]. rewrite <- Ha in Hp.
  exists p, meth, [], []. simpl. by repeat split.
Qed.

(** The resolved callback either leaves the array alone and calls no
    policy method, or is the policy's and calls the method once. *)
Lemma callAuthCallback_frame g user ability s r s' :
  callAuthCallback g user ability s = (r, s') →
  quiet s s' ∨ viaPolicyMethod g ability s s'.
Proof.
  destruct (truthy (first (args s))) eqn:Ht.
  - destruct (getPolicyFor_truthy g _ Ht) as [[p|] Hp].
    + destruct (p !! formatAbilityToMethod ability) as [meth|] eqn:Hm.
      * rewrite (callAuthCallback_policy g user ability s p meth Ht Hp Hm).
        unfold callPolicyBefore.
        destruct (p !! "before") as [bf|].
        -- unfold bind at 1. unfold bind at 1. simpl.
           destruct (invoke _ _ s) as [[res|e] s1] eqn:Hinv;
             apply quiet_invoke in Hinv; try done.
           ++ destruct (nullish res).
              ** rewrite (callPolicyMethod_run p _ user s1 meth Hm).
                 intros Hcall. right.
                 by apply (methodCall_via g ability user s s1 meth p r s').
              ** intros [= _ <-]. by left.
           ++ intros [= _ <-]. by left.
        -- unfold bind, ret. simpl.
           rewrite (callPolicyMethod_run p _ user s meth Hm).
           intros Hcall. right.
           apply (methodCall_via g ability user s s meth p r s');
             [done..|apply quiet_refl|done].
      * unfold callAuthCallback, resolveAuthCallback. run_step.
        rewrite Ht. run_step. rewrite Hp. simpl.
        unfold resolvePolicyCallback. rewrite Hm.
        destruct (abilities g !! ability) as [f|]; simpl.
        -- intros Hinv. left. by apply quiet_invoke in Hinv.
        -- intros [= _ <-]. left. apply quiet_refl.
    + unfold callAuthCallback, resolveAuthCallback. run_step.
      rewrite Ht. run_step. rewrite Hp. simpl.
      destruct (abilities g !! ability) as [f|]; simpl.
      * intros Hinv. left. by apply quiet_invoke in Hinv.
      * intros [= _ <-]. left. apply quiet_refl.
  - unfold callAuthCallback, resolveAuthCallback. run_step.
    rewrite Ht. simpl.
    destruct (abilities g !! ability) as [f|]; simpl.
    + intros Hinv. left. by apply quiet_invoke in Hinv.
    + intros [= _ <-]. left. apply quiet_refl.
Qed.

Lemma raw_frame g ability s r s' :
  raw g ability s = (r, s') →
  quiet s s' ∨ viaPolicyMethod g ability s s'.
Proof.
  rewrite raw_primary. set (user := default VUndefined (rls s)).
  unfold bind at 1, primary. unfold bind at 1, callBeforeCallbacks.
  destruct (callBeforeFrom 0 (beforeCallbacks g) user ability s)
    as [[b|e] s1] eqn:Hb; apply callBeforeFrom_quiet in Hb.
  - destruct (nullish b).
    + destruct (callAuthCallback g user ability s1) as [[res|e] s2] eqn:Hauth;
        apply callAuthCallback_frame in Hauth.
      * intros Hafter. apply callAfterFrom_quiet in Hafter.
        destruct Hauth as [Hq|Hv].
        -- left. eauto using quiet_trans.
        -- right. eauto using quiet_via, via_quiet.
      * intros [= _ <-]. destruct Hauth as [Hq|Hv].
        -- left. eauto using quiet_trans.
        -- right. eauto using quiet_via.
    + unfold ret. intros Hafter. apply callAfterFrom_quiet in Hafter.
      left. eauto using quiet_trans.
  - intros [= _ <-]. by left.
Qed.

Lemma quiet_newEvents s s' :
  quiet s s' → existsb isPolicyMethodCall (newEvents s s') = false.
Proof.
  intros (_ & evs & Ht & He). unfold newEvents.
  by rewrite Ht, drop_app_length.
Qed.

End Frame.

(** C10. When [args[0]] is a class and a query calls a policy method, the
    class is resolved to a policy that has the method, the method receives
    the arguments without the class, and the array itself has lost its
    first element when the query returns.  In [check] and [any] the next
    ability is evaluated on that store, that is on the shortened array. *)
Theorem C10_class_argument_removed_in_place {W : Type} (g : GateService W)
    (ability : string) (s s' : store W) (c : Class) (rest : list value)
    (res : completion Result) :
  args s = VClass c :: rest →
  raw g ability s = (res, s') →
  existsb isPolicyMethodCall (newEvents s s') = true →
  args s' = rest
  ∧ EvPolicyMethod (formatAbilityToMethod ability) rest ∈ newEvents s s'
  ∧ (∃ p, getPolicyFor g (VClass c) = Normal (Some p)
          ∧ is_Some (p !! formatAbilityToMethod ability))
  ∧ (∀ r more, res = Normal r → allowed (coerce r) = true →
       check g (Many (ability :: more)) s = checkLoop g more s')
  ∧ (∀ r more, res = Normal r → allowed (coerce r) = false →
       any g (Many (ability :: more)) s = anyLoop g more s').
Proof.
  intros Hargs Hraw Hcalled.
  destruct (raw_frame g ability s res s' Hraw) as [Hq|Hv].
  { apply quiet_newEvents in Hq. congruence. }
  destruct Hv as (p & meth & evs1 & evs2 & Hp & Hm & Hs & Htr & _ & _).
  rewrite Hargs in Hp, Hs. unfold shifted in Hs. simpl in Hp, Hs.
  repeat split.
  - done.
  - unfold newEvents. rewrite Htr, drop_app_length, Hs.
    apply elem_of_app. right. by left.
  - exists p. by rewrite Hm.
  - intros r more -> Hallowed. unfold check. simpl.
    rewrite (bind_normal _ _ _ _ _ (inspect_raw _ _ _ _ _ Hraw)).
    by rewrite Hallowed.
  - intros r more -> Hdenied. unfold any. simpl.
    rewrite (bind_normal _ _ _ _ _ (inspect_raw _ _ _ _ _ Hraw)).
    by rewrite Hdenied.
Qed.

Lemma C10_witness :
  raw Demo.withPost "create-post" (Demo.start [VClass Demo.Post])
  = (Normal (RBool true), mkStore 1 [] None [EvPolicyMethod "createPost" []])
  ∧ check Demo.withPost (Many ["create-post"; "delete-post"])
      (Demo.start [VClass Demo.Post])
    = checkLoop Demo.withPost ["delete-post"]
        (mkStore 1 [] None [EvPolicyMethod "createPost" []])
  ∧ check Demo.withPost (Many ["create-post"; "delete-post"])
      (Demo.start [VClass Demo.Post])
    = (Normal false, mkStore 1 [] None [EvPolicyMethod "createPost" []])
  ∧ check Demo.withPost (One "delete-post") (Demo.start [VClass Demo.Post])
    = (Normal true, mkStore 1 [] None [EvPolicyMethod "deletePost" []]).
Proof.
  assert (raw Demo.withPost "create-post" (Demo.start [VClass Demo.Post])
          = (Normal (RBool true),
             mkStore 1 [] None [EvPolicyMethod "createPost" []])) as Hraw
    by reflexivity.
  destruct (C10_class_argument_removed_in_place Demo.withPost "create-post"
              (Demo.start [VClass Demo.Post])
              (mkStore 1 [] None [EvPolicyMethod "createPost" []])
              Demo.Post [] (Normal (RBool true)) eq_refl Hraw eq_refl)
    as (_ & _ & _ & Hcheck & _).
  split; [exact Hraw|]. split; [|split].
  - apply (Hcheck (RBool true) ["delete-post"]); reflexivity.
  - reflexivity.
  - reflexivity.
Defined.

(** ** Exceptions *)

Section Totality.

Context {W : Type}.
Implicit Types (g : GateService W) (s : store W) (user : value)
  (ability method : string) (w : W) (p : PolicyMap W).

Lemma invoke_total {A} (ev : event) (f : W → completion A * W) s :
  (∀ w, ∃ r w', f w = (Normal r, w')) →
  ∃ r s', invoke ev f s = (Normal r, s').
Proof.
  intros Hf. unfold invoke. destruct (Hf (world s)) as (r & w' & ->).
  by eexists _, _.
Qed.

Lemma callBeforeFrom_total (hooks : list (BeforeCallback W)) :
  (∀ hook, hook ∈ hooks →
     ∀ user ability a w, ∃ res w', hook user ability a w = (Normal res, w')) →
  ∀ index user ability s,
    ∃ r s', callBeforeFrom index hooks user ability s = (Normal r, s').
Proof.
  induction hooks as [|hook hooks IH]; intros Hall index user ability s; simpl.
  - by eexists _, _.
  - unfold bind at 1. simpl. unfold bind.
    destruct (invoke_total (EvBefore index) (hook user ability (args s)) s)
      as (res & s1 & ->).
    { apply Hall. by left. }
    destruct (nullish res); [|by eexists _, _].
    apply IH. intros h Hh. apply Hall. by right.
Qed.

Lemma callAfterFrom_total (hooks : list (AfterCallback W)) :
  (∀ hook, hook ∈ hooks →
     ∀ user ability result a w,
       ∃ res w', hook user ability result a w = (Normal res, w')) →
  ∀ index user ability result s,
    ∃ r s', callAfterFrom index hooks user ability result s = (Normal r, s').
Proof.
  induction hooks as [|hook hooks IH];
    intros Hall index user ability result s; simpl.
  - by eexists _, _.
  - assert (∀ h, h ∈ hooks →
              ∀ user ability result a w,
                ∃ res w', h user ability result a w = (Normal res, w'))
      as Hrest.
    { intros h Hh. apply Hall. by right. }
    destruct (nullish result).
    + unfold bind at 1. unfold bind at 1. simpl.
      destruct (invoke_total (EvAfter index)
                  (hook user ability result (args s)) s) as (res & s1 & ->).
      { apply Hall. by left. }
      by apply IH.
    + unfold bind at 1. simpl. by apply IH.
Qed.

(** The resolved callback when no policy answers. *)
Lemma callAuthCallback_global g user ability s :
  truthy (first (args s)) = false
  ∨ getPolicyFor g (first (args s)) = Normal None
  ∨ (∃ p, getPolicyFor g (first (args s)) = Normal (Some p)
          ∧ p !! formatAbilityToMethod ability = None) →
  callAuthCallback g user ability s
  = match abilities g !! ability with
    | Some f => invoke (EvAbility ability (args s)) (f user (args s)) s
    | None => (Normal RNull, s)
    end.
Proof.
  intros Hcase. unfold callAuthCallback, resolveAuthCallback. run_step.
  destruct (truthy (first (args s))) eqn:Ht; simpl.
  - destruct Hcase as [?|[Hp|(p & Hp & Hm)]]; [done|..];
      run_step; rewrite Hp; simpl.
    + by destruct (abilities g !! ability).
    + unfold resolvePolicyCallback. rewrite Hm.
      by destruct (abilities g !! ability).
  - by destruct (abilities g !! ability).
Qed.

Lemma callAuthCallback_total g user ability s :
  totalGate g →
  ∃ r s', callAuthCallback g user ability s = (Normal r, s').
Proof.
  intros Hg.
  assert (∃ r s', match abilities g !! ability with
                  | Some f => invoke (EvAbility ability (args s)) (f user (args s)) s
                  | None => (Normal RNull, s)
                  end = (Normal r, s')) as Hfallback.
  { destruct (abilities g !! ability) as [f|] eqn:Hf; [|by eexists _, _].
    apply invoke_total. intros w. apply (total_abilities g Hg ability f Hf). }
  destruct (truthy (first (args s))) eqn:Ht.
  - destruct (getPolicyFor_truthy g _ Ht) as [[p|] Hp].
    + destruct (getPolicyFor_registered g _ p Hp) as [t Hin].
      destruct (p !! formatAbilityToMethod ability) as [meth|] eqn:Hm.
      * rewrite (callAuthCallback_policy g user ability s p meth Ht Hp Hm).
        assert (∀ s0, ∃ r s', callPolicyMethod p (formatAbilityToMethod ability)
                                 user s0 = (Normal r, s')) as Hmethod.
        { intros s0. rewrite (callPolicyMethod_run p _ user s0 meth Hm).
          unfold methodCall.
          destruct (total_policies g Hg t p _ meth Hin Hm user
                      (shifted (args s0)) (world s0)) as (r & w' & ->).
          by eexists _, _. }
        unfold callPolicyBefore.
        destruct (p !! "before") as [bf|] eqn:Hbf.
        -- unfold bind at 1. unfold bind at 1. simpl.
           destruct (invoke_total (EvPolicyBefore (VStr ability :: args s))
                       (bf user (VStr ability :: args s)) s) as (res & s1 & ->).
           { intros w. apply (total_policies g Hg t p _ bf Hin Hbf). }
           destruct (nullish res); [apply Hmethod | by eexists _, _].
        -- unfold bind, ret. simpl. apply Hmethod.
      * rewrite callAuthCallback_global; [done|]. right. right. by exists p.
    + rewrite callAuthCallback_global; [done|]. right. by left.
  - rewrite callAuthCallback_global; [done|]. by left.
Qed.

Lemma raw_total g ability s :
  totalGate g → ∃ r s', raw g ability s = (Normal r, s').
Proof.
  intros Hg. rewrite raw_primary. set (user := default VUndefined (rls s)).
  unfold bind at 1, primary. unfold bind at 1, callBeforeCallbacks.
  destruct (callBeforeFrom_total (beforeCallbacks g) (total_before g Hg)
              0 user ability s) as (b & s1 & ->).
  assert (∃ r s2, (if nullish b then callAuthCallback g user ability
                   else ret b) s1 = (Normal r, s2)) as (r & s2 & ->).
  { destruct (nullish b); [by apply callAuthCallback_total | by eexists _, _]. }
  apply (callAfterFrom_total (afterCallbacks g) (total_after g Hg)).
Qed.

Lemma inspect_total g ability s :
  totalGate g → ∃ r s', inspect g ability s = (Normal r, s').
Proof.
  intros Hg. destruct (raw_total g ability s Hg) as (r & s' & Hraw).
  rewrite (inspect_raw _ _ _ _ _ Hraw). by eexists _, _.
Qed.

Lemma checkLoop_total g (l : list string) s :
  totalGate g → ∃ b s', checkLoop g l s = (Normal b, s').
Proof.
  intros Hg. revert s. induction l as [|ability l IH]; intros s; simpl.
  - by eexists _, _.
  - destruct (inspect_total g ability s Hg) as (r & s1 & Hi).
    rewrite (bind_normal _ _ _ _ _ Hi).
    destruct (negb (allowed r)); [by eexists _, _ | apply IH].
Qed.

Lemma anyLoop_total g (l : list string) s :
  totalGate g → ∃ b s', anyLoop g l s = (Normal b, s').
Proof.
  intros Hg. revert s. induction l as [|ability l IH]; intros s; simpl.
  - by eexists _, _.
  - destruct (inspect_total g ability s Hg) as (r & s1 & Hi).
    rewrite (bind_normal _ _ _ _ _ Hi).
    destruct (allowed r); [by eexists _, _ | apply IH].
Qed.

Lemma denial_response (r : GateResponse) :
  getResponse (Response.denial r) = Some r.
Proof.
  unfold Response.denial. destruct (status r) as [st|]; [|done].
  by destruct (st =? 0)%Z.
Qed.

Lemma denial_status (r : GateResponse) (st : Z) :
  status r = Some st → st ≠ 0%Z →
  Response.denial r = HttpException r st.
Proof.
  unfold Response.denial. intros -> Hst.
  by rewrite (proj2 (Z.eqb_neq st 0)).
Qed.

Lemma denial_default (r : GateResponse) :
  status r = None ∨ status r = Some 0%Z →
  Response.denial r = ForbiddenException r.
Proof. unfold Response.denial. by intros [-> | ->]. Qed.

End Totality.

(** C6, with the status clause narrowed to a status other than 0.
    [authorize] throws exactly when the response that [inspect] produced
    is a denial, and returns that response otherwise.  The exception
    carries the response; it carries the status set on it when that
    status is not 0, and is the 403 exception when no status was set or
    the status is 0.  When no callback throws, [raw], [inspect], [check],
    [allows], [denies], [any] and [none] all return a value. *)
Theorem C6_authorize_throws_iff_denied {W : Type} (g : GateService W)
    (ability : string) (s s' : store W) (r : GateResponse) :
  inspect g ability s = (Normal r, s') →
  authorize g ability s
  = (if allowed r then Normal r else Throw (Response.denial r), s')
  ∧ getResponse (Response.denial r) = Some r
  ∧ (∀ st, status r = Some st → st ≠ 0%Z →
           getStatus (Response.denial r) = Some st)
  ∧ (status r = None ∨ status r = Some 0%Z →
     getStatus (Response.denial r) = Some 403%Z)
  ∧ (totalGate g →
     ∀ (a : Abilities) (ability0 : string) (s0 : store W),
       (∃ v s1, raw g ability0 s0 = (Normal v, s1))
       ∧ (∃ v s1, inspect g ability0 s0 = (Normal v, s1))
       ∧ (∃ v s1, check g a s0 = (Normal v, s1))
       ∧ (∃ v s1, allows g a s0 = (Normal v, s1))
       ∧ (∃ v s1, denies g a s0 = (Normal v, s1))
       ∧ (∃ v s1, any g a s0 = (Normal v, s1))
       ∧ (∃ v s1, none g a s0 = (Normal v, s1))).
Proof.
  intros Hinspect. repeat split.
  - unfold authorize. rewrite (bind_normal _ _ _ _ _ Hinspect).
    unfold lift, Response.authorize, Response.denied.
    by destruct (allowed r).
  - apply denial_response.
  - intros st Hst Hnz. by rewrite (denial_status r st Hst Hnz).
  - intros Hst. by rewrite (denial_default r Hst).
  - by apply raw_total.
  - by apply inspect_total.
  - by apply checkLoop_total.
  - by apply checkLoop_total.
  - unfold denies, allows, check.
    destruct (checkLoop_total g (toArray a) s0) as (b & s1 & Hc); [done|].
    rewrite (bind_normal _ _ _ _ _ Hc). by eexists _, _.
  - by apply anyLoop_total.
  - unfold none, any.
    destruct (anyLoop_total g (toArray a) s0) as (b & s1 & Hc); [done|].
    rewrite (bind_normal _ _ _ _ _ Hc). by eexists _, _.
Qed.

Lemma C6_witness :
  authorize Demo.responding "x" (Demo.start [])
  = (Throw (HttpException Demo.notFound 404),
     mkStore 0 [] None [EvAbility "x" []])
  ∧ getStatus (Response.denial Demo.notFound) = Some 404%Z.
Proof.
  destruct (C6_authorize_throws_iff_denied Demo.responding "x" (Demo.start [])
              (mkStore 0 [] None [EvAbility "x" []]) Demo.notFound eq_refl)
    as (Hauth & _ & Hstatus & _).
  split; [exact Hauth|].
  apply Hstatus; [reflexivity | done].
Defined.

(** A denial whose status was set to 0 is raised as the 403 exception:
    the status carried is not the status set. *)
Lemma C6_status_zero_counterexample :
  ¬ (∀ (g : GateService nat) (ability : string) (s s' : store nat)
       (r : GateResponse) (st : Z) (e : exn),
       inspect g ability s = (Normal r, s') →
       allowed r = false →
       status r = Some st →
       authorize g ability s = (Throw e, s') →
       getStatus e = Some st).
Proof.
  intros Hclaim.
  specialize (Hclaim Demo.responding "z" (Demo.start [])
                (mkStore 0 [] None [EvAbility "z" []]) Demo.zeroStatus 0%Z
                (ForbiddenException Demo.zeroStatus)
                eq_refl eq_refl eq_refl eq_refl).
  discriminate Hclaim.
Qed.

(** ** The ambient user *)

Section Ambient.

Context {W : Type}.

(** Outside any scope the user is [undefined]. *)
Lemma resolveUser_outside (s : store W) :
  rls s = None → resolveUser s = (Normal VUndefined, s).
Proof. unfold resolveUser. by intros ->. Qed.

(** Inside a scope the user is the one the scope was entered with, and
    the former content of the storage is back when the scope is left,
    by return or by exception. *)
Lemma runWithUser_scope {A} (user : value) (callback : M W A) (s : store W) :
  rls (runWithUser user callback s).2 = rls s
  ∧ runWithUser user resolveUser s = (Normal user, s).
Proof.
  unfold runWithUser, resolveUser. simpl.
  split; [by destruct (callback _) | by destruct s].
Qed.

Lemma runWithUser_nested (outer inner : value) (s : store W) :
  runWithUser outer
    (let* a := runWithUser inner resolveUser in
     let* b := resolveUser in
     ret (a, b)) s
  = (Normal (inner, outer), s).
Proof. unfold runWithUser, resolveUser, bind, ret. simpl. by destruct s. Qed.

End Ambient.

Example allows_under_user :
  runWithUser (VInst (Root "User") 1) (allows Demo.authenticated (One "x"))
    (Demo.start [])
  = (Normal true, mkStore 0 [] None [EvAbility "x" []])
  ∧ runWithUser VNull (allows Demo.authenticated (One "x")) (Demo.start [])
    = (Normal false, mkStore 0 [] None [EvAbility "x" []]).
Proof. by split. Qed.

(** * Further properties of the service *)

(** ** Lists of abilities *)

Section AbilityLists.

Context {W : Type}.
Implicit Types (g : GateService W) (s : store W) (ability : string)
  (l : list string).

Lemma checkLoop_app g l1 l2 s :
  checkLoop g (l1 ++ l2) s
  = match checkLoop g l1 s with
    | (Normal true, s1) => checkLoop g l2 s1
    | other => other
    end.
Proof.
  revert s. induction l1 as [|ability l1 IH]; intros s; simpl; [done|].
  unfold bind. destruct (inspect g ability s) as [[r|e] s1]; [|done].
  destruct (negb (allowed r)); [done | apply IH].
Qed.

Lemma anyLoop_app g l1 l2 s :
  anyLoop g (l1 ++ l2) s
  = match anyLoop g l1 s with
    | (Normal false, s1) => anyLoop g l2 s1
    | other => other
    end.
Proof.
  revert s. induction l1 as [|ability l1 IH]; intros s; simpl; [done|].
  unfold bind. destruct (inspect g ability s) as [[r|e] s1]; [|done].
  destruct (allowed r); [done | apply IH].
Qed.

End AbilityLists.

(** X1. [check] on a list that is the concatenation of two lists checks
    the first list and, only if that returned [true], goes on with the
    second list from the store the first one left; a [false] or an
    exception of the first list is the answer, and the second list is not
    looked at.  On the empty list [check] is [true] and calls nothing. *)
Theorem check_concatenation {W : Type} (g : GateService W)
    (l1 l2 : list string) (s : store W) :
  check g (Many (l1 ++ l2)) s
  = match check g (Many l1) s with
    | (Normal true, s1) => check g (Many l2) s1
    | other => other
    end
  ∧ check g (Many []) s = (Normal true, s).
Proof. split; [apply checkLoop_app | done]. Qed.

(** X2. [any] on a concatenation tries the first list and, only if that
    returned [false], goes on with the second list from the store the
    first one left; a [true] or an exception of the first list is the
    answer.  On the empty list [any] is [false] and calls nothing. *)
Theorem any_concatenation {W : Type} (g : GateService W)
    (l1 l2 : list string) (s : store W) :
  any g (Many (l1 ++ l2)) s
  = match any g (Many l1) s with
    | (Normal false, s1) => any g (Many l2) s1
    | other => other
    end
  ∧ any g (Many []) s = (Normal false, s).
Proof. split; [apply anyLoop_app | done]. Qed.

(** X3. For one ability, given as a string or as a one-element array,
    [allows], [check] and [any] give the same answer and leave the same
    store, and so do [denies] and [none]; [denies] is the negation of
    [allows] and throws what [allows] throws. *)
Theorem single_ability_queries_agree {W : Type} (g : GateService W)
    (ability : string) (s : store W) :
  check g (One ability) s = any g (One ability) s
  ∧ check g (Many [ability]) s = check g (One ability) s
  ∧ any g (Many [ability]) s = check g (One ability) s
  ∧ allows g (One ability) s = check g (One ability) s
  ∧ denies g (One ability) s = none g (One ability) s
  ∧ denies g (One ability) s
    = match allows g (One ability) s with
      | (Normal b, s') => (Normal (negb b), s')
      | (Throw e, s') => (Throw e, s')
      end.
Proof.
  assert (check g (One ability) s = any g (One ability) s) as Hsame.
  { unfold check, any. simpl. unfold bind.
    destruct (inspect g ability s) as [[r|e] s1]; [|done].
    by destruct (allowed r). }
  repeat split; try done.
  unfold denies, none, allows. unfold bind. by rewrite Hsame.
Qed.

(** ** Exceptions of callbacks *)

Section Propagation.

Context {W : Type}.
Implicit Types (g : GateService W) (s : store W) (user : value)
  (ability : string) (w : W).

Lemma callBeforeFrom_throws (pre : list (BeforeCallback W)) :
  ∀ hook post index user ability s w1 w2 e,
    beforePass pre user ability (args s) (world s) = Some w1 →
    hook user ability (args s) w1 = (Throw e, w2) →
    callBeforeFrom index (pre ++ hook :: post) user ability s
    = (Throw e,
       mkStore w2 (args s) (rls s)
         (trace s ++ map EvBefore (seq index (S (length pre))))).
Proof.
  induction pre as [|h0 pre IH];
    intros hook post index user ability s w1 w2 e; simpl.
  - intros [= <-] Hh. run_step. by rewrite Hh.
  - run_step.
    destruct (h0 user ability (args s) (world s)) as [[res|e0] w'] eqn:Hh0;
      [|done].
    destruct (nullish res) eqn:Hres; [|done].
    intros Hpass Hh.
    rewrite (IH hook post (S index) user ability _ w1 w2 e); [|done..].
    simpl. by rewrite <- app_assoc.
Qed.

Lemma inspect_throws g ability s e s' :
  raw g ability s = (Throw e, s') → inspect g ability s = (Throw e, s').
Proof. intros Hraw. unfold inspect. by rewrite (bind_throw _ _ _ _ _ Hraw). Qed.

End Propagation.

(** X4. A before-hook that throws ends the query: the before-hooks
    registered before it have run, in order, and nothing runs after it
    (no later before-hook, no ability callback, no policy method, no
    after-hook); [raw], [inspect], [check] and [authorize] all throw that
    exception. *)
Theorem before_hook_exception_propagates {W : Type} (g : GateService W)
    (ability : string) (s : store W)
    (pre post : list (BeforeCallback W)) (hook : BeforeCallback W)
    (e : exn) (w1 w2 : W) :
  let user := default VUndefined (rls s) in
  let s' := mkStore w2 (args s) (rls s)
              (trace s ++ map EvBefore (seq 0 (S (length pre)))) in
  beforeCallbacks g = pre ++ hook :: post →
  beforePass pre user ability (args s) (world s) = Some w1 →
  hook user ability (args s) w1 = (Throw e, w2) →
  raw g ability s = (Throw e, s')
  ∧ inspect g ability s = (Throw e, s')
  ∧ check g (One ability) s = (Throw e, s')
  ∧ authorize g ability s = (Throw e, s').
Proof.
  intros user s' Hhooks Hpass Hhook.
  assert (raw g ability s = (Throw e, s')) as Hraw.
  { rewrite raw_primary. fold user. apply bind_throw.
    unfold primary, callBeforeCallbacks. apply bind_throw. rewrite Hhooks.
    by apply (callBeforeFrom_throws pre hook post 0 user ability s w1 w2 e). }
  pose proof (inspect_throws g ability s e s' Hraw) as Hinspect.
  repeat split; [done..| |].
  - unfold check. simpl. by apply bind_throw.
  - unfold authorize. by apply bind_throw.
Qed.

(** X5. An exception that leaves [raw] for an ability leaves every query
    on it unchanged and with the same store: [inspect], [authorize],
    [check], [allows], [denies], [any] and [none] throw it, and the
    abilities that follow in the list are not evaluated. *)
Theorem exception_aborts_queries {W : Type} (g : GateService W)
    (ability : string) (more : list string) (s s' : store W) (e : exn) :
  raw g ability s = (Throw e, s') →
  inspect g ability s = (Throw e, s')
  ∧ authorize g ability s = (Throw e, s')
  ∧ check g (Many (ability :: more)) s = (Throw e, s')
  ∧ allows g (Many (ability :: more)) s = (Throw e, s')
  ∧ denies g (Many (ability :: more)) s = (Throw e, s')
  ∧ any g (Many (ability :: more)) s = (Throw e, s')
  ∧ none g (Many (ability :: more)) s = (Throw e, s').
Proof.
  intros Hraw.
  pose proof (inspect_throws g ability s e s' Hraw) as Hinspect.
  assert (check g (Many (ability :: more)) s = (Throw e, s')) as Hcheck.
  { unfold check. simpl. by apply bind_throw. }
  assert (any g (Many (ability :: more)) s = (Throw e, s')) as Hany.
  { unfold any. simpl. by apply bind_throw. }
  repeat split; try done.
  - unfold authorize. by apply bind_throw.
  - unfold denies, allows. by apply bind_throw.
  - unfold none. by apply bind_throw.
Qed.

(** ** Registration *)

Section Registration.

Context {W : Type}.
Implicit Types (g : GateService W) (s : store W) (user : value)
  (ability : string) (m : list (Class * PolicyMap W)).

Lemma bootstrap_snoc (providers : list (PolicyMeta * PolicyMap W))
    (entry : PolicyMeta * PolicyMap W) g :
  onApplicationBootstrap (providers ++ [entry]) g
  = registerPolicy (onApplicationBootstrap providers g) entry.
Proof. unfold onApplicationBootstrap. by rewrite fold_left_app. Qed.

Lemma bootstrap_keeps (providers : list (PolicyMeta * PolicyMap W)) g :
  abilities (onApplicationBootstrap providers g) = abilities g
  ∧ beforeCallbacks (onApplicationBootstrap providers g) = beforeCallbacks g
  ∧ afterCallbacks (onApplicationBootstrap providers g) = afterCallbacks g.
Proof.
  revert g. induction providers as [|entry providers IH]; intros g; [done|].
  simpl. destruct (IH (registerPolicy g entry)) as (-> & -> & ->). done.
Qed.

Lemma has_forallb g (l : list string) :
  has g (Many l)
  = forallb (λ ability, bool_decide (is_Some (abilities g !! ability))) l.
Proof. done. Qed.

Lemma mapGet_None_keys (k : Class) m : mapGet k m = None ↔ k ∉ m.*1.
Proof.
  induction m as [|[k' v'] m IH]; simpl.
  - split; [intros _; apply not_elem_of_nil | done].
  - destruct (decide (k = k')) as [->|Hne].
    + split; [done|]. intros Hnot. exfalso. apply Hnot. by left.
    + rewrite IH. rewrite not_elem_of_cons. tauto.
Qed.

Lemma mapSet_absent (k : Class) (v : PolicyMap W) m :
  mapGet k m = None → mapSet k v m = m ++ [(k, v)].
Proof.
  induction m as [|[k' v'] m IH]; simpl; [done|].
  destruct (decide (k = k')); [done|]. intros Hget. by rewrite IH.
Qed.

Lemma mapSet_present (k : Class) (v : PolicyMap W) m :
  is_Some (mapGet k m) → (mapSet k v m).*1 = m.*1.
Proof.
  induction m as [|[k' v'] m IH]; cbn [mapSet mapGet]; [by intros [? ?]|].
  destruct (decide (k = k')) as [->|Hne]; [done|].
  intros Hget. rewrite !fmap_cons. f_equal. by apply IH.
Qed.

Lemma mapSet_NoDup (k : Class) (v : PolicyMap W) m :
  NoDup m.*1 → NoDup (mapSet k v m).*1.
Proof.
  intros Hnd. destruct (mapGet k m) as [v0|] eqn:Hget.
  - by rewrite mapSet_present.
  - rewrite (mapSet_absent k v m Hget), fmap_app. simpl.
    apply NoDup_app. split; [done|]. split; [|apply NoDup_singleton].
    intros x Hx Hx'. apply list_elem_of_singleton in Hx'. subst x.
    by apply (mapGet_None_keys k m).
Qed.


Lemma getPolicyFor_policies g g' (x : value) :
  policies g' = policies g → getPolicyFor g' x = getPolicyFor g x.
Proof. intros Hp. unfold getPolicyFor. by rewrite Hp. Qed.

Lemma noPolicyMethod_cases g ability (a : list value) :
  noPolicyMethod g ability a →
  truthy (first a) = false
  ∨ getPolicyFor g (first a) = Normal None
  ∨ (∃ p, getPolicyFor g (first a) = Normal (Some p)
          ∧ p !! formatAbilityToMethod ability = None).
Proof.
  intros Hno. destruct (truthy (first a)) eqn:Ht; [|by left].
  right. destruct (getPolicyFor_truthy g _ Ht) as [[p|] Hp]; [|by left].
  right. exists p. split; [done|]. by apply Hno.
Qed.

Lemma scanPolicies_no_prototype (proto : value) m :
  (∀ target, instanceOf proto target = false) → scanPolicies proto m = None.
Proof.
  intros Hno. induction m as [|[k v] m IH]; simpl; [done|]. by rewrite Hno.
Qed.

End Registration.

(** X6. [has] reflects [define] and nothing else: after
    [define(a, cb)] it is true for [a] and as before for every other
    name; registering policies or hooks does not change it, so an ability
    that only a policy answers is not reported; on an array it is the
    conjunction over the elements, true on the empty array. *)
Theorem has_reflects_define_only {W : Type} (g : GateService W)
    (a b : string) (cb : AbilityCallback W)
    (providers : list (PolicyMeta * PolicyMap W))
    (hook : BeforeCallback W) (hook' : AfterCallback W)
    (x : Abilities) (l1 l2 : list string) :
  has (define a cb g) (One b) = bool_decide (a = b) || has g (One b)
  ∧ has (onApplicationBootstrap providers g) x = has g x
  ∧ has (onApplicationBootstrap providers newGate) (One a) = false
  ∧ has (before hook g) x = has g x
  ∧ has (after hook' g) x = has g x
  ∧ has g (Many (l1 ++ l2)) = has g (Many l1) && has g (Many l2)
  ∧ has g (Many []) = true.
Proof.
  repeat split; try done.
  - unfold has, define. simpl.
    destruct (decide (a = b)) as [->|Hne].
    + rewrite lookup_insert_eq. rewrite bool_decide_eq_true_2; [|by eexists].
      by rewrite bool_decide_eq_true_2.
    + rewrite lookup_insert_ne; [|done].
      by rewrite (bool_decide_eq_false_2 (a = b)).
  - unfold has. by destruct (bootstrap_keeps providers g) as (-> & _).
  - unfold has. destruct (bootstrap_keeps providers (@newGate W)) as (-> & _).
    simpl. rewrite lookup_empty. rewrite bool_decide_eq_false_2; [done|].
    by intros [? ?].
  - rewrite !has_forallb. apply forallb_app.
Qed.

(** X7. Defining an ability twice keeps the last callback only, and
    definitions of different abilities can be made in either order.  When
    no policy answers for the arguments, the resolved callback for the
    ability is the last one defined: it is called once with the user and
    the arguments, and its completion is the outcome. *)
Theorem define_last_callback_answers {W : Type} (g : GateService W)
    (user : value) (ability : string) (cb1 cb2 : AbilityCallback W)
    (s : store W) :
  noPolicyMethod g ability (args s) →
  define ability cb2 (define ability cb1 g) = define ability cb2 g
  ∧ (∀ other cb, other ≠ ability →
       define ability cb2 (define other cb g)
       = define other cb (define ability cb2 g))
  ∧ callAuthCallback (define ability cb2 (define ability cb1 g)) user ability s
    = invoke (EvAbility ability (args s)) (cb2 user (args s)) s.
Proof.
  intros Hno.
  assert (define ability cb2 (define ability cb1 g) = define ability cb2 g) as Hlast.
  { unfold define. simpl. by rewrite insert_insert_eq. }
  repeat split; [done| |].
  - intros other cb Hne. unfold define. simpl. f_equal.
    by apply insert_insert_ne.
  - rewrite Hlast. rewrite callAuthCallback_global.
    + unfold define. simpl. by rewrite lookup_insert_eq.
    + apply (noPolicyMethod_cases (define ability cb2 g)).
      intros Ht p Hp. apply (Hno Ht p).
      by rewrite <- (getPolicyFor_policies g (define ability cb2 g)).
Qed.

(** X8. When [args[0]] has a policy with a callable method for the
    ability, the resolved callback is the policy's: its outcome is the
    same whatever callbacks are defined for abilities and whatever hooks
    are registered, so a callback defined for the same ability is not
    consulted. *)
Theorem policy_method_shadows_ability {W : Type} (g g' : GateService W)
    (user : value) (ability : string) (s : store W)
    (p : PolicyMap W) (meth : AbilityCallback W) :
  policies g' = policies g →
  truthy (first (args s)) = true →
  getPolicyFor g (first (args s)) = Normal (Some p) →
  p !! formatAbilityToMethod ability = Some meth →
  callAuthCallback g' user ability s = callAuthCallback g user ability s
  ∧ ∀ cb, callAuthCallback (define ability cb g) user ability s
          = callAuthCallback g user ability s.
Proof.
  intros Hpol Ht Hp Hm.
  assert (∀ g0 : GateService W, policies g0 = policies g →
            callAuthCallback g0 user ability s = callAuthCallback g user ability s)
    as Hany.
  { intros g0 Hg0.
    rewrite (callAuthCallback_policy g0 user ability s p meth Ht); [|by rewrite (getPolicyFor_policies g g0)|done].
    by rewrite (callAuthCallback_policy g user ability s p meth Ht Hp Hm). }
  split; [by apply Hany|]. intros cb. by apply Hany.
Qed.

(** X10. The registry keeps insertion order like a [Map]: setting a
    class that is absent appends the pair, setting a class that is
    present replaces its policy where it stands, so the order of the
    classes (the order of the ancestor scan) does not change; the classes
    stay pairwise distinct and the other classes keep their policies. *)
Theorem registry_set_keeps_order {W : Type} (k : Class) (v : PolicyMap W)
    (m : list (Class * PolicyMap W)) :
  (mapGet k m = None → mapSet k v m = m ++ [(k, v)])
  ∧ (is_Some (mapGet k m) → (mapSet k v m).*1 = m.*1)
  ∧ (NoDup m.*1 → NoDup (mapSet k v m).*1)
  ∧ mapGet k (mapSet k v m) = Some v
  ∧ (∀ k', k ≠ k' → mapGet k' (mapSet k v m) = mapGet k' m).
Proof.
  repeat split.
  - apply mapSet_absent.
  - apply mapSet_present.
  - apply mapSet_NoDup.
  - apply mapGet_mapSet_eq.
  - intros k'. apply mapGet_mapSet_ne.
Qed.

(** X11. [getPolicyFor] throws exactly on [null] and [undefined], and
    what it throws is a [TypeError]; on a boolean, a number or a string
    it answers "none". *)
Theorem getPolicyFor_throws_on_null_only {W : Type} (g : GateService W)
    (obj : value) :
  ((∃ e, getPolicyFor g obj = Throw e) ↔ obj = VNull ∨ obj = VUndefined)
  ∧ (∀ e, getPolicyFor g obj = Throw e → e = TypeError)
  ∧ (typeof obj ∈ [TBoolean; TNumber; TString] →
     getPolicyFor g obj = Normal None).
Proof.
  unfold getPolicyFor.
  destruct obj; simpl;
    repeat match goal with
           | |- context [mapGet ?c ?m] => destruct (mapGet c m)
           end;
    (split; [split|split]).
  all: try (intros [e He]; first [discriminate He | by left | by right]).
  all: try (intros [H|H]; first [discriminate H | by eexists]).
  all: try (intros e He; congruence).
  all: intros Hty; first [by rewrite scanPolicies_no_prototype | exfalso];
    repeat (apply elem_of_cons in Hty as [Hty|Hty]; [discriminate Hty|]);
    by apply elem_of_nil in Hty.
Qed.

(** ** Responses *)

(** X12. [GateResponse.authorize] returns the response itself exactly
    when it is allowed, whatever status it carries; otherwise it throws
    an exception that carries the response and a status that is never 0:
    the status of the response, or 403 when that status is absent or 0. *)
Theorem response_authorize_outcome (r : GateResponse) :
  match Response.authorize r with
  | Normal r' => r' = r ∧ allowed r = true
  | Throw e =>
      allowed r = false
      ∧ getResponse e = Some r
      ∧ ∃ st, getStatus e = Some st
              ∧ st ≠ 0%Z
              ∧ (status r = Some st
                 ∨ (st = 403%Z ∧ (status r = None ∨ status r = Some 0%Z)))
  end.
Proof.
  unfold Response.authorize, Response.denied, Response.denial.
  destruct (allowed r) eqn:Ha; simpl; [done|].
  destruct (status r) as [st|] eqn:Hst.
  - destruct (st =? 0)%Z eqn:Hz; simpl.
    + apply Z.eqb_eq in Hz as ->.
      repeat split. exists 403%Z. repeat split; [done|]. right. split; [done|by right].
    + apply Z.eqb_neq in Hz.
      repeat split. exists st. repeat split; [done|by left].
  - repeat split. exists 403%Z. repeat split; [done|]. right. split; [done|by left].
Qed.

(** X14. When [raw] returns a result that is not a [GateResponse],
    [inspect] allows exactly when the result is [true]; [authorize] then
    returns a bare "allow" response, and for [false], [null] and
    [undefined] it throws the 403 exception with a bare "deny" response:
    no message, no code, no status. *)
Theorem plain_result_authorize {W : Type} (g : GateService W)
    (ability : string) (s s' : store W) (result : Result) :
  raw g ability s = (Normal result, s') →
  plain result = true →
  (isTruthy result = true ↔ result = RBool true)
  ∧ inspect g ability s
    = (Normal (if isTruthy result
               then Response.allow None VNull else Response.deny None VNull), s')
  ∧ authorize g ability s
    = (if isTruthy result
       then Normal (Response.allow None VNull)
       else Throw (ForbiddenException (Response.deny None VNull)), s')
  ∧ check g (One ability) s = (Normal (isTruthy result), s').
Proof.
  intros Hraw Hplain.
  pose proof (inspect_raw g ability s result s' Hraw) as Hinspect.
  assert (coerce result
          = if isTruthy result
            then Response.allow None VNull else Response.deny None VNull) as Hc.
  { by destruct result. }
  rewrite Hc in Hinspect. repeat split; try done.
  - by destruct result as [| |[]|].
  - by intros ->.
  - unfold authorize. rewrite (bind_normal _ _ _ _ _ Hinspect).
    by destruct (isTruthy result).
  - rewrite (check_one g ability s result s' Hraw), Hc.
    by destruct (isTruthy result).
Qed.

(** ** Method names, continued *)

Section MethodNameShape.

Import MethodNameRule.

Lemma isSep_upperChar (c : ascii) : Str.isSep (Str.upperChar c) = Str.isSep c.
Proof. by destruct c as [[] [] [] [] [] [] [] []]. Qed.

Lemma lowerChar_idempotent (c : ascii) :
  Str.lowerChar (Str.lowerChar c) = Str.lowerChar c.
Proof. by destruct c as [[] [] [] [] [] [] [] []]. Qed.

Lemma lowerChar_hyphen (c : ascii) :
  Ascii.eqb "-" (Str.lowerChar c) = Ascii.eqb "-" c.
Proof. by destruct c as [[] [] [] [] [] [] [] []]. Qed.

Lemma isSep_hyphen (c : ascii) : Str.isSep c = false → Ascii.eqb "-" c = false.
Proof. by destruct c as [[] [] [] [] [] [] [] []]. Qed.

Lemma includes_hyphen_cons (c : ascii) (r : string) :
  Str.includes "-" (String c r) = Ascii.eqb "-" c || Str.includes "-" r.
Proof.
  destruct (Ascii.eqb "-" c) eqn:He.
  - apply Ascii.eqb_eq in He as <-. by destruct r.
  - apply Ascii.eqb_neq in He. cbn [Str.includes String.prefix orb].
    by destruct (ascii_dec "-" c).
Qed.

Lemma includes_hyphen_toLowerCase (s : string) :
  Str.includes "-" (Str.toLowerCase s) = Str.includes "-" s.
Proof.
  induction s as [|c r IH]; [done|].
  change (Str.toLowerCase (String c r))
    with (String (Str.lowerChar c) (Str.toLowerCase r)).
  by rewrite !includes_hyphen_cons, lowerChar_hyphen, IH.
Qed.

Lemma toLowerCase_idempotent (s : string) :
  Str.toLowerCase (Str.toLowerCase s) = Str.toLowerCase s.
Proof.
  induction s as [|c r IH]; simpl; [done|].
  by rewrite lowerChar_idempotent, IH.
Qed.

Lemma sepFree_no_hyphen (s : string) :
  sepFree s = true → Str.includes "-" s = false.
Proof.
  induction s as [|c r IH]; [done|].
  rewrite includes_hyphen_cons. cbn [sepFree].
  intros [Hc Hr]%andb_true_iff. apply negb_true_iff in Hc.
  by rewrite (isSep_hyphen c Hc), IH.
Qed.

Lemma sepFree_app (a b : string) :
  sepFree (a +:+ b) = sepFree a && sepFree b.
Proof.
  induction a as [|c a IH]; [done|].
  change (String c a +:+ b) with (String c (a +:+ b)). simpl.
  by rewrite IH, andb_assoc.
Qed.

Lemma sepFree_word (s : string) : sepFree (word s).1 = true.
Proof.
  induction s as [|c r IH]; simpl; [done|].
  destruct (Str.isSep c) eqn:Hc; simpl; [done|].
  destruct (word r) as [w rest]; simpl in *. by rewrite Hc.
Qed.

Lemma sepFree_wordsFuel (fuel : nat) (s : string) :
  Forall (λ w, sepFree w = true) (wordsFuel fuel s).
Proof.
  revert s. induction fuel as [|fuel IH]; intros s; simpl;
    pose proof (sepFree_word s) as Hw;
    destruct (word s) as [w [|c r]]; simpl in *;
    repeat constructor; done.
Qed.

Lemma sepFree_capitalize (w : string) : sepFree (capitalize w) = sepFree w.
Proof. destruct w as [|c r]; simpl; [done|]. by rewrite isSep_upperChar. Qed.

Lemma sepFree_join (l : list string) :
  Forall (λ w, sepFree w = true) l → sepFree (Str.join l) = true.
Proof.
  induction 1 as [|w l Hw _ IH]; simpl; [done|].
  by rewrite sepFree_app, Hw, IH.
Qed.

(** The hyphen path of [formatAbilityToMethod], by the rule. *)
Lemma formatAbilityToMethod_hyphen (ability : string) :
  Str.includes "-" ability = true →
  formatAbilityToMethod ability = camel (words (Str.toLowerCase ability)).
Proof.
  intros Hh. unfold formatAbilityToMethod. rewrite Hh, split_words.
  unfold Str.mapIndex, camel.
  destruct (words (Str.toLowerCase ability)) as [|w ws]; [done|].
  simpl. by rewrite mapIndexFrom_capitalize.
Qed.

Lemma sepFree_camel (ws : list string) :
  Forall (λ w, sepFree w = true) ws → sepFree (camel ws) = true.
Proof.
  destruct 1 as [|w ws Hw Hws]; simpl; [done|].
  rewrite sepFree_app, Hw. simpl. apply sepFree_join.
  apply Forall_fmap. eapply Forall_impl; [exact Hws|].
  intros x Hx. simpl. by rewrite sepFree_capitalize.
Qed.

End MethodNameShape.

(** X15. The method name derived from a name with a hyphen contains no
    hyphen, underscore or white space; and deriving is idempotent: the
    method name of a method name is that method name. *)
Theorem method_name_is_stable (ability : string) :
  formatAbilityToMethod (formatAbilityToMethod ability)
  = formatAbilityToMethod ability
  ∧ (Str.includes "-" ability = true →
     sepFree (formatAbilityToMethod ability) = true
     ∧ Str.includes "-" (formatAbilityToMethod ability) = false).
Proof.
  assert (Str.includes "-" ability = true →
          sepFree (formatAbilityToMethod ability) = true) as Hfree.
  { intros Hh. rewrite (formatAbilityToMethod_hyphen ability Hh).
    apply sepFree_camel, sepFree_wordsFuel. }
  split.
  - destruct (Str.includes "-" ability) eqn:Hh.
    + pose proof (sepFree_no_hyphen _ (Hfree eq_refl)) as Hno.
      unfold formatAbilityToMethod at 1. by rewrite Hno.
    + unfold formatAbilityToMethod. by rewrite Hh, Hh.
  - intros Hh. split; [by apply Hfree|]. by apply sepFree_no_hyphen, Hfree.
Qed.

(** X16. Names with a hyphen are matched without regard to letter case:
    two names that are equal once lower-cased, one of them with a hyphen,
    derive the same method name. *)
Theorem hyphenated_names_ignore_case (a b : string) :
  Str.includes "-" a = true →
  Str.toLowerCase a = Str.toLowerCase b →
  formatAbilityToMethod a = formatAbilityToMethod b
  ∧ formatAbilityToMethod (Str.toLowerCase a) = formatAbilityToMethod a.
Proof.
  intros Ha Hab.
  assert (Str.includes "-" b = true) as Hb.
  { by rewrite <- includes_hyphen_toLowerCase, <- Hab, includes_hyphen_toLowerCase. }
  split.
  - unfold formatAbilityToMethod. by rewrite Ha, Hb, Hab.
  - unfold formatAbilityToMethod.
    by rewrite includes_hyphen_toLowerCase, Ha, toLowerCase_idempotent.
Qed.

(** ** What a query leaves alone *)

Section Framing.

Context {W : Type}.
Implicit Types (g : GateService W) (s : store W) (user : value)
  (ability : string) (p : PolicyMap W).

Lemma framed_ret {A} (a : A) : framed (ret (W := W) a).
Proof. intros s r s' [= _ <-]. done. Qed.

Lemma framed_throw {A} (e : exn) : framed (throw (W := W) (A := A) e).
Proof. intros s r s' [= _ <-]. done. Qed.

Lemma framed_lift {A} (c : completion A) : framed (lift (W := W) c).
Proof. intros s r s' [= _ <-]. done. Qed.

Lemma framed_getArgs : framed (getArgs (W := W)).
Proof. intros s r s' [= _ <-]. done. Qed.

Lemma framed_shiftArgs : framed (shiftArgs (W := W)).
Proof. intros s r s' [= _ <-]. done. Qed.

Lemma framed_resolveUser : framed (resolveUser (W := W)).
Proof. intros s r s' [= _ <-]. done. Qed.

Lemma framed_invoke {A} (ev : event) (f : W → completion A * W) :
  framed (invoke ev f).
Proof.
  intros s r s'. unfold invoke. destruct (f (world s)) as [r0 w].
  intros [= _ <-]. simpl. split; [done|]. by apply prefix_app_r.
Qed.

(** Sequencing, with what is known of the value handed over. *)
Lemma framed_bind_with {A B} (P : A → Prop) (m : M W A) (k : A → M W B) :
  framed m →
  (∀ s a s', m s = (Normal a, s') → P a) →
  (∀ a, P a → framed (k a)) →
  framed (bind m k).
Proof.
  intros Hm HP Hk s r s'. unfold bind.
  destruct (m s) as [[a|e] s1] eqn:Hrun.
  - intros Hrest. destruct (Hm s _ s1 Hrun) as [Hr1 Ht1].
    destruct (Hk a (HP s a s1 Hrun) s1 r s' Hrest) as [Hr2 Ht2].
    split; [congruence | by etrans].
  - intros [= <- <-]. by apply (Hm s _ s1 Hrun).
Qed.

Lemma framed_bind {A B} (m : M W A) (k : A → M W B) :
  framed m → (∀ a, framed (k a)) → framed (bind m k).
Proof.
  intros Hm Hk. apply (framed_bind_with (λ _, True)); [done|done|].
  intros a _. apply Hk.
Qed.

Lemma framed_callBeforeFrom (hooks : list (BeforeCallback W)) :
  ∀ index user ability, framed (callBeforeFrom index hooks user ability).
Proof.
  induction hooks as [|hook hooks IH]; intros index user ability; simpl.
  - apply framed_ret.
  - apply framed_bind; [apply framed_getArgs|]. intros a.
    apply framed_bind; [apply framed_invoke|]. intros res.
    destruct (nullish res); [apply IH | apply framed_ret].
Qed.

Lemma framed_callAfterFrom (hooks : list (AfterCallback W)) :
  ∀ index user ability result,
    framed (callAfterFrom index hooks user ability result).
Proof.
  induction hooks as [|hook hooks IH]; intros index user ability result; simpl.
  - apply framed_ret.
  - apply framed_bind; [|intros res; apply IH].
    destruct (nullish result); [|apply framed_ret].
    apply framed_bind; [apply framed_getArgs|]. intros a. apply framed_invoke.
Qed.

Lemma framed_callPolicyBefore p user ability :
  framed (callPolicyBefore p user ability).
Proof.
  unfold callPolicyBefore. destruct (p !! "before"); [|apply framed_ret].
  apply framed_bind; [apply framed_getArgs|]. intros a. apply framed_invoke.
Qed.

Lemma framed_callPolicyMethod p (method : string) user :
  framed (callPolicyMethod p method user).
Proof.
  unfold callPolicyMethod.
  apply framed_bind; [apply framed_getArgs|]. intros a.
  apply framed_bind.
  { destruct (decide _); [apply framed_shiftArgs | apply framed_ret]. }
  intros _. apply framed_bind; [apply framed_getArgs|]. intros a'.
  destruct (p !! method); [apply framed_invoke | apply framed_throw].
Qed.

Lemma framed_resolveAuthCallback g user ability :
  framed (resolveAuthCallback g user ability)
  ∧ ∀ s callback s',
      resolveAuthCallback g user ability s = (Normal callback, s') →
      ∀ u passed, framed (callback u passed).
Proof.
  assert (∀ q : option (Callable W),
            (∀ cb, q = Some cb → ∀ u passed, framed (cb u passed)) →
            framed (match q with
                    | Some callback => ret callback
                    | None =>
                        match abilities g !! ability with
                        | Some f =>
                            ret (λ u passed,
                                   invoke (EvAbility ability passed) (f u passed))
                        | None => ret (λ _ _, ret RNull)
                        end
                    end : M W (Callable W))
            ∧ ∀ s callback s',
                (match q with
                 | Some callback => ret callback
                 | None =>
                     match abilities g !! ability with
                     | Some f =>
                         ret (λ u passed,
                                invoke (EvAbility ability passed) (f u passed))
                     | None => ret (λ _ _, ret RNull)
                     end
                 end : M W (Callable W)) s = (Normal callback, s') →
                ∀ u passed, framed (callback u passed)) as Hpick.
  { intros [cb|] Hq.
    - split; [apply framed_ret|]. intros s callback s' [= <- _]. by apply Hq.
    - destruct (abilities g !! ability) as [f|].
      + split; [apply framed_ret|]. intros s callback s' [= <- _] u passed.
        apply framed_invoke.
      + split; [apply framed_ret|]. intros s callback s' [= <- _] u passed.
        apply framed_ret. }
  assert (∀ p cb, resolvePolicyCallback user ability p = Some cb →
                  ∀ u passed, framed (cb u passed)) as Hclosure.
  { intros p cb. unfold resolvePolicyCallback.
    destruct (p !! formatAbilityToMethod ability); [|done].
    intros [= <-] u passed.
    apply framed_bind; [apply framed_callPolicyBefore|]. intros res.
    destruct (nullish res); [apply framed_callPolicyMethod | apply framed_ret]. }
  unfold resolveAuthCallback.
  split.
  - apply framed_bind; [apply framed_getArgs|]. intros a.
    apply (framed_bind_with
             (λ q, ∀ cb, q = Some cb → ∀ u passed, framed (cb u passed))).
    + destruct (truthy (first a)); [|apply framed_ret].
      apply framed_bind; [apply framed_lift|].
      intros [p|]; apply framed_ret.
    + intros s q s'. destruct (truthy (first a)); [|by intros [= <- _]].
      unfold bind, lift. destruct (getPolicyFor g (first a)) as [[p|]|e];
        [| by intros [= <- _] | done].
      intros [= <- _]. apply Hclosure.
    + intros q Hq. by apply Hpick.
  - intros s callback s'. unfold bind at 1, getArgs at 1.
    unfold bind at 1.
    destruct ((if truthy (first (args s))
               then let* policy := lift (getPolicyFor g (first (args s))) in
                    match policy with
                    | Some p => ret (resolvePolicyCallback user ability p)
                    | None => ret None
                    end
               else ret None) s) as [[q|e] s1] eqn:Hq; [|done].
    assert (∀ cb, q = Some cb → ∀ u passed, framed (cb u passed)) as Hq'.
    { revert Hq. destruct (truthy (first (args s))); [|by intros [= <- _]].
      unfold bind, lift. destruct (getPolicyFor g (first (args s))) as [[p|]|e];
        [| by intros [= <- _] | done].
      intros [= <- _]. apply Hclosure. }
    apply (Hpick q Hq').
Qed.

Lemma framed_callAuthCallback g user ability :
  framed (callAuthCallback g user ability).
Proof.
  unfold callAuthCallback.
  destruct (framed_resolveAuthCallback g user ability) as [Hres Hcb].
  apply (framed_bind_with (λ cb, ∀ u passed, framed (cb u passed))); [done|done|].
  intros cb Hframed. apply framed_bind; [apply framed_getArgs|]. intros a.
  apply Hframed.
Qed.

Lemma framed_raw g ability : framed (raw g ability).
Proof.
  unfold raw. apply framed_bind; [apply framed_resolveUser|]. intros user.
  apply framed_bind; [|intros result; apply framed_callAfterFrom].
  unfold primary. apply framed_bind; [apply framed_callBeforeFrom|].
  intros b. destruct (nullish b); [apply framed_callAuthCallback | apply framed_ret].
Qed.

Lemma framed_inspect g ability : framed (inspect g ability).
Proof.
  unfold inspect. apply framed_bind; [apply framed_raw|]. intros r.
  apply framed_ret.
Qed.

Lemma framed_checkLoop g (l : list string) : framed (checkLoop g l).
Proof.
  induction l as [|ability l IH]; simpl; [apply framed_ret|].
  apply framed_bind; [apply framed_inspect|]. intros r.
  destruct (negb (allowed r)); [apply framed_ret | apply IH].
Qed.

Lemma framed_anyLoop g (l : list string) : framed (anyLoop g l).
Proof.
  induction l as [|ability l IH]; simpl; [apply framed_ret|].
  apply framed_bind; [apply framed_inspect|]. intros r.
  destruct (allowed r); [apply framed_ret | apply IH].
Qed.

Lemma raw_args_kept g ability s r s' :
  typeof (first (args s)) ≠ TFunction →
  raw g ability s = (r, s') → args s' = args s.
Proof.
  intros Hty Hraw. destruct (raw_frame g ability s r s' Hraw) as [Hq|Hv].
  - by destruct Hq.
  - destruct Hv as (p & meth & evs1 & evs2 & _ & _ & Hs & _).
    rewrite Hs. unfold shifted. by rewrite decide_False.
Qed.

Lemma inspect_args_kept g ability s r s' :
  typeof (first (args s)) ≠ TFunction →
  inspect g ability s = (r, s') → args s' = args s.
Proof.
  intros Hty. unfold inspect, bind.
  destruct (raw g ability s) as [[res|e] s1] eqn:Hraw;
    intros [= _ <-]; by apply (raw_args_kept g ability s _ _ Hty Hraw).
Qed.

Lemma checkLoop_args_kept g (l : list string) s r s' :
  typeof (first (args s)) ≠ TFunction →
  checkLoop g l s = (r, s') → args s' = args s.
Proof.
  revert s. induction l as [|ability l IH]; intros s Hty; simpl.
  - by intros [= _ <-].
  - unfold bind.
    destruct (inspect g ability s) as [[res|e] s1] eqn:Hi;
      pose proof (inspect_args_kept g ability s _ _ Hty Hi) as Hkept.
    + destruct (negb (allowed res)); [by intros [= _ <-]|].
      intros Hrest. rewrite <- Hkept. apply (IH s1); [by rewrite Hkept | done].
    + by intros [= _ <-].
Qed.

Lemma anyLoop_args_kept g (l : list string) s r s' :
  typeof (first (args s)) ≠ TFunction →
  anyLoop g l s = (r, s') → args s' = args s.
Proof.
  revert s. induction l as [|ability l IH]; intros s Hty; simpl.
  - by intros [= _ <-].
  - unfold bind.
    destruct (inspect g ability s) as [[res|e] s1] eqn:Hi;
      pose proof (inspect_args_kept g ability s _ _ Hty Hi) as Hkept.
    + destruct (allowed res); [by intros [= _ <-]|].
      intros Hrest. rewrite <- Hkept. apply (IH s1); [by rewrite Hkept | done].
    + by intros [= _ <-].
Qed.

End Framing.

(** X17. No query changes the ambient user or rewrites history: when
    [raw], [inspect], [authorize], [check], [allows], [denies], [any] or
    [none] completes, by return or by exception, the storage holds what it
    held before and the trace before is a prefix of the trace after. *)
Theorem queries_keep_ambient_user {W : Type} (g : GateService W)
    (ability : string) (x : Abilities) :
  framed (raw g ability)
  ∧ framed (inspect g ability)
  ∧ framed (authorize g ability)
  ∧ framed (check g x)
  ∧ framed (allows g x)
  ∧ framed (denies g x)
  ∧ framed (any g x)
  ∧ framed (none g x).
Proof.
  split_and!.
  - apply framed_raw.
  - apply framed_inspect.
  - unfold authorize. apply framed_bind; [apply framed_inspect|]. intros r.
    apply framed_lift.
  - apply framed_checkLoop.
  - apply framed_checkLoop.
  - unfold denies. apply framed_bind; [apply framed_checkLoop|]. intros b.
    apply framed_ret.
  - apply framed_anyLoop.
  - unfold none. apply framed_bind; [apply framed_anyLoop|]. intros b.
    apply framed_ret.
Qed.

(** X18. The service writes to the argument array in one place only,
    the [shift] of [callPolicyMethod], and only for a class: with
    callbacks that leave the array alone, as all callbacks of this model
    do, no query changes the array when [args[0]] is not a class (an
    instance, a primitive, or no argument at all), whatever policies,
    abilities and hooks are registered and however the query completes. *)
Theorem args_kept_without_class {W : Type} (g : GateService W)
    (ability : string) (x : Abilities) (s : store W) :
  typeof (first (args s)) ≠ TFunction →
  (∀ r s', raw g ability s = (r, s') → args s' = args s)
  ∧ (∀ r s', inspect g ability s = (r, s') → args s' = args s)
  ∧ (∀ r s', authorize g ability s = (r, s') → args s' = args s)
  ∧ (∀ r s', check g x s = (r, s') → args s' = args s)
  ∧ (∀ r s', any g x s = (r, s') → args s' = args s).
Proof.
  intros Hty. repeat split.
  - intros r s'. by apply raw_args_kept.
  - intros r s'. by apply inspect_args_kept.
  - intros r s'. unfold authorize, bind.
    destruct (inspect g ability s) as [[res|e] s1] eqn:Hi;
      intros [= _ <-]; by apply (inspect_args_kept g ability s _ _ Hty Hi).
  - intros r s'. by apply checkLoop_args_kept.
  - intros r s'. by apply anyLoop_args_kept.
Qed.

(** X20. A policy that has no callable method for the ability is passed
    over as a whole: its [before] is not called either, and the outcome
    is that of the callback defined for the ability, called once with the
    user and the arguments, or [null] when none is defined. *)
Theorem policy_without_method_is_skipped {W : Type} (g : GateService W)
    (user : value) (ability : string) (s : store W) (p : PolicyMap W) :
  truthy (first (args s)) = true →
  getPolicyFor g (first (args s)) = Normal (Some p) →
  p !! formatAbilityToMethod ability = None →
  callAuthCallback g user ability s
  = match abilities g !! ability with
    | Some f => invoke (EvAbility ability (args s)) (f user (args s)) s
    | None => (Normal RNull, s)
    end.
Proof.
  intros Ht Hp Hm. apply callAuthCallback_global. right. right. by exists p.
Qed.

(** X21. A [GateResponse] returned by the pipeline reaches the caller as
    it is, with its message, code and status: [inspect] returns it,
    [check] answers by its [allowed] field, and [authorize] does what the
    response's own [authorize] does. *)
Theorem response_result_passes_through {W : Type} (g : GateService W)
    (ability : string) (s s' : store W) (r : GateResponse) :
  raw g ability s = (Normal (RResponse r), s') →
  inspect g ability s = (Normal r, s')
  ∧ check g (One ability) s = (Normal (allowed r), s')
  ∧ authorize g ability s = (Response.authorize r, s').
Proof.
  intros Hraw.
  pose proof (inspect_raw g ability s _ s' Hraw) as Hinspect.
  repeat split; [done| |].
  - by rewrite (check_one g ability s _ s' Hraw).
  - unfold authorize. by rewrite (bind_normal _ _ _ _ _ Hinspect).
Qed.

(** ** The further properties on concrete gates *)

Lemma before_hook_exception_witness :
  raw Cases.failing "x" (Demo.start [])
  = (Throw (Raised (VStr "boom")), mkStore 0 [] None [EvBefore 0; EvBefore 1])
  ∧ authorize Cases.failing "x" (Demo.start [])
    = (Throw (Raised (VStr "boom")), mkStore 0 [] None [EvBefore 0; EvBefore 1]).
Proof.
  destruct (before_hook_exception_propagates Cases.failing "x" (Demo.start [])
              [Demo.silentHook] [Demo.denyingHook] Cases.throwingHook
              (Raised (VStr "boom")) 0 0)
    as (Hraw & _ & _ & Hauth); [reflexivity..|].
  split; [exact Hraw | exact Hauth].
Defined.

Lemma exception_aborts_witness :
  check Cases.failing (Many ["x"; "y"]) (Demo.start [])
  = (Throw (Raised (VStr "boom")), mkStore 0 [] None [EvBefore 0; EvBefore 1])
  ∧ none Cases.failing (Many ["x"; "y"]) (Demo.start [])
    = (Throw (Raised (VStr "boom")), mkStore 0 [] None [EvBefore 0; EvBefore 1]).
Proof.
  destruct (exception_aborts_queries Cases.failing "x" ["y"] (Demo.start [])
              (mkStore 0 [] None [EvBefore 0; EvBefore 1])
              (Raised (VStr "boom")) eq_refl)
    as (_ & _ & Hcheck & _ & _ & _ & Hnone).
  split; [exact Hcheck | exact Hnone].
Defined.

Lemma define_last_callback_witness :
  callAuthCallback Cases.redefined VUndefined "x" (Demo.start [VNum 7])
  = (Normal (RBool true), mkStore 1 [VNum 7] None [EvAbility "x" [VNum 7]]).
Proof.
  destruct (define_last_callback_answers newGate VUndefined "x"
              Cases.refusing Demo.allowing (Demo.start [VNum 7]))
    as (_ & _ & Hcall).
  - intros _ p [=].
  - exact Hcall.
Defined.

Lemma policy_method_shadows_witness :
  callAuthCallback Cases.shadowed VUndefined "create-post"
    (Demo.start [VInst Demo.Post 1])
  = callAuthCallback Demo.withPost VUndefined "create-post"
      (Demo.start [VInst Demo.Post 1])
  ∧ callAuthCallback Cases.shadowed VUndefined "create-post"
      (Demo.start [VInst Demo.Post 1])
    = (Normal (RBool true),
       mkStore 1 [VInst Demo.Post 1] None
         [EvPolicyMethod "createPost" [VInst Demo.Post 1]]).
Proof.
  destruct (policy_method_shadows_ability Demo.withPost Cases.shadowed VUndefined
              "create-post" (Demo.start [VInst Demo.Post 1])
              Demo.postPolicy Demo.marking)
    as (Hsame & _); [reflexivity..|].
  split; [exact Hsame | reflexivity].
Defined.

Lemma registry_set_witness :
  mapSet Demo.Derived Demo.derivedPolicy [(Demo.Base, Demo.basePolicy)]
  = [(Demo.Base, Demo.basePolicy); (Demo.Derived, Demo.derivedPolicy)]
  ∧ (mapSet Demo.Base Demo.derivedPolicy
       [(Demo.Base, Demo.basePolicy); (Demo.Derived, Demo.derivedPolicy)]).*1
    = [Demo.Base; Demo.Derived].
Proof.
  split.
  - apply (registry_set_keeps_order Demo.Derived Demo.derivedPolicy
             [(Demo.Base, Demo.basePolicy)]).
    reflexivity.
  - apply (proj1 (proj2 (registry_set_keeps_order Demo.Base Demo.derivedPolicy
                           [(Demo.Base, Demo.basePolicy);
                            (Demo.Derived, Demo.derivedPolicy)]))).
    by eexists.
Defined.

Lemma getPolicyFor_primitive_witness :
  getPolicyFor Demo.withBoth (VNum 3) = Normal None.
Proof.
  apply (getPolicyFor_throws_on_null_only Demo.withBoth (VNum 3)).
  simpl. apply elem_of_cons. right. by left.
Defined.

Lemma plain_result_witness :
  authorize Demo.guarded "x" (Demo.start [])
  = (Throw (ForbiddenException (Response.deny None VNull)),
     mkStore 0 [] None [EvBefore 0; EvBefore 1]).
Proof.
  destruct (plain_result_authorize Demo.guarded "x" (Demo.start [])
              (mkStore 0 [] None [EvBefore 0; EvBefore 1]) (RBool false)
              eq_refl eq_refl)
    as (_ & _ & Hauth & _).
  exact Hauth.
Defined.

Lemma method_name_stable_witness :
  sepFree (formatAbilityToMethod "create-_ post") = true
  ∧ Str.includes "-" (formatAbilityToMethod "create-_ post") = false.
Proof.
  apply (method_name_is_stable "create-_ post"). reflexivity.
Defined.

Lemma hyphenated_names_witness :
  formatAbilityToMethod "Create-POST" = formatAbilityToMethod "create-post".
Proof.
  apply (hyphenated_names_ignore_case "Create-POST" "create-post"); reflexivity.
Defined.

Lemma args_kept_witness :
  args (check Demo.withPost (Many ["create-post"; "delete-post"])
          (Demo.start [VInst Demo.Post 1])).2
  = [VInst Demo.Post 1].
Proof.
  destruct (args_kept_without_class Demo.withPost "create-post"
              (Many ["create-post"; "delete-post"])
              (Demo.start [VInst Demo.Post 1]))
    as (_ & _ & _ & Hcheck & _); [done|].
  apply (Hcheck (check Demo.withPost (Many ["create-post"; "delete-post"])
                   (Demo.start [VInst Demo.Post 1])).1).
  apply surjective_pairing.
Defined.

Lemma policy_without_method_witness :
  callAuthCallback Demo.withOverride VUndefined "delete-post"
    (Demo.start [VInst Demo.Post 1])
  = (Normal RNull, Demo.start [VInst Demo.Post 1]).
Proof.
  apply (policy_without_method_is_skipped Demo.withOverride VUndefined
           "delete-post" (Demo.start [VInst Demo.Post 1])
           Demo.overridingPolicy);
    reflexivity.
Defined.

Lemma response_result_witness :
  authorize Demo.responding "x" (Demo.start [])
  = (Response.authorize Demo.notFound, mkStore 0 [] None [EvAbility "x" []])
  ∧ inspect Demo.responding "x" (Demo.start [])
    = (Normal Demo.notFound, mkStore 0 [] None [EvAbility "x" []]).
Proof.
  destruct (response_result_passes_through Demo.responding "x" (Demo.start [])
              (mkStore 0 [] None [EvAbility "x" []]) Demo.notFound eq_refl)
    as (Hinspect & _ & Hauth).
  split; [exact Hauth | exact Hinspect].
Defined.

(** X22. The path of a defined ability: when every before-hook returns
    [null] or [undefined] and no policy answers, the callback defined for
    the ability is called once, after all the before-hooks, with the user
    and the arguments; a result of it that is neither [null] nor
    [undefined] is what [raw] returns, and no after-hook is called. *)
Theorem defined_ability_answers {W : Type} (g : GateService W)
    (ability : string) (s : store W) (cb : AbilityCallback W)
    (v : Result) (w1 w2 : W) :
  let user := default VUndefined (rls s) in
  beforePass (beforeCallbacks g) user ability (args s) (world s) = Some w1 →
  noPolicyMethod g ability (args s) →
  abilities g !! ability = Some cb →
  cb user (args s) w1 = (Normal v, w2) →
  nullish v = false →
  raw g ability s
  = (Normal v,
     mkStore w2 (args s) (rls s)
       ((trace s ++ map EvBefore (seq 0 (length (beforeCallbacks g))))
        ++ [EvAbility ability (args s)])).
Proof.
  intros user Hpass Hno Hab Hcb Hv.
  apply raw_decided; [|done]. fold user. unfold primary, callBeforeCallbacks.
  rewrite (bind_normal _ _ _ _ _
             (callBeforeFrom_pass _ 0 user ability s w1 Hpass)).
  simpl. rewrite callAuthCallback_global.
  - rewrite Hab. unfold invoke. simpl. by rewrite Hcb.
  - by apply noPolicyMethod_cases.
Qed.

Lemma defined_ability_witness :
  raw Cases.answered "x" (Demo.start [VNum 7])
  = (Normal (RBool true),
     mkStore 1 [VNum 7] None [EvBefore 0; EvAbility "x" [VNum 7]]).
Proof.
  apply (defined_ability_answers Cases.answered "x" (Demo.start [VNum 7])
           Demo.allowing (RBool true) 0 1); try reflexivity.
  intros _ p [=].
Defined.

(** ** Method names of every JavaScript string *)

Section JsStringFacts.

Context {C : Type} `{EqDecision C}.
Variables (hyphen underscore : C).
Variable isWhiteSpace : C → bool.
Variables (toLowerCase toUpperCase : list C → list C).

Local Abbreviation isSplit := (JsString.isSplitUnit hyphen underscore isWhiteSpace).
Local Abbreviation splitGo := (JsString.splitUnitsGo hyphen underscore isWhiteSpace).
Local Abbreviation leading := (JsString.leadingWord hyphen underscore isWhiteSpace).
Local Abbreviation dropRun := (JsString.dropRun hyphen underscore isWhiteSpace).
Local Abbreviation wordsFuel := (JsString.wordsOfFuel hyphen underscore isWhiteSpace).

Lemma dropRun_length (s : list C) : length (dropRun s) ≤ length s.
Proof.
  induction s as [|c r IH]; simpl; [lia|].
  destruct (isSplit c); simpl; lia.
Qed.

Lemma leadingWord_rest_length (s : list C) :
  length (leading s).2 ≤ length s.
Proof.
  induction s as [|c r IH]; simpl; [lia|].
  destruct (isSplit c); simpl; [lia|].
  destruct (leading r) as [w rest]; simpl in *; lia.
Qed.

Lemma leadingWord_rest_split (s : list C) (c : C) (r : list C) :
  (leading s).2 = c :: r → isSplit c = true.
Proof.
  induction s as [|d t IH]; simpl; [discriminate|].
  destruct (isSplit d) eqn:Hd; simpl.
  - intros [= -> ->]. exact Hd.
  - destruct (leading t) as [w rest]; simpl in *. exact IH.
Qed.

Lemma splitUnitsGo_in_run (cur s : list C) :
  splitGo true cur s = splitGo false cur (dropRun s).
Proof.
  induction s as [|c r IH]; simpl; [done|].
  destruct (isSplit c) eqn:Hc; simpl; [done|].
  by rewrite Hc.
Qed.

Lemma splitUnitsGo_word (cur s : list C) :
  splitGo false cur s =
    match (leading s).2 with
    | [] => [rev_append cur (leading s).1]
    | _ :: _ =>
        rev_append cur (leading s).1 :: splitGo false [] (dropRun (leading s).2)
    end.
Proof.
  revert cur. induction s as [|c r IH]; intros cur; simpl; [done|].
  destruct (isSplit c) eqn:Hc; simpl.
  - rewrite Hc. by rewrite splitUnitsGo_in_run.
  - rewrite IH. destruct (leading r) as [w rest]; simpl. by destruct rest.
Qed.

Lemma splitUnits_wordsOfFuel (fuel : nat) (s : list C) :
  length s ≤ fuel →
  JsString.splitUnits hyphen underscore isWhiteSpace s = wordsFuel fuel s.
Proof.
  unfold JsString.splitUnits. revert s.
  induction fuel as [|fuel IH]; intros s Hlen.
  - destruct s; simpl in *; [done | lia].
  - rewrite splitUnitsGo_word. simpl.
    pose proof (leadingWord_rest_length s) as Hrest.
    destruct (leading s) as [w rest] eqn:Hw; simpl in *.
    destruct rest as [|c r]; [done|].
    f_equal. apply IH.
    assert (isSplit c = true) as Hc.
    { apply (leadingWord_rest_split s c r). by rewrite Hw. }
    simpl. rewrite Hc.
    pose proof (dropRun_length r). simpl in Hrest. lia.
Qed.

Lemma mapIndexFrom_capitalizeUnits (i : nat) (ws : list (list C)) :
  Str.mapIndexFrom
    (λ word index,
       if (index =? 0)%nat then word
       else toUpperCase (take 1 word) ++ drop 1 word)
    (S i) ws
  = map (JsString.capitalizeUnits toUpperCase) ws.
Proof.
  revert i. induction ws as [|w ws IH]; intros i; simpl; [done|].
  by rewrite IH.
Qed.

(** The code on any string is the rule on that string. *)
Lemma formatUnits_rule (ability : list C) :
  JsString.formatUnits hyphen underscore isWhiteSpace toLowerCase toUpperCase
    ability
  = if JsString.includesUnit hyphen ability
    then JsString.camelUnits toUpperCase
           (JsString.wordsOf hyphen underscore isWhiteSpace (toLowerCase ability))
    else ability.
Proof.
  unfold JsString.formatUnits.
  destruct (JsString.includesUnit hyphen ability); [|done].
  rewrite (splitUnits_wordsOfFuel (length (toLowerCase ability))); [|done].
  unfold Str.mapIndex, JsString.camelUnits, JsString.wordsOf.
  destruct (wordsFuel _ _) as [|w ws]; [done|].
  simpl. by rewrite mapIndexFrom_capitalizeUnits.
Qed.

(** Built-ins that agree on every string give the same method names. *)
Lemma methodNameUnits_ext (lower' upper' : list C → list C) (ability : list C) :
  (∀ l, toLowerCase l = lower' l) →
  (∀ l, toUpperCase l = upper' l) →
  JsString.methodNameUnits hyphen underscore isWhiteSpace toLowerCase toUpperCase
    ability
  = JsString.methodNameUnits hyphen underscore isWhiteSpace lower' upper' ability.
Proof.
  intros Hl Hu. unfold JsString.methodNameUnits.
  destruct (JsString.includesUnit hyphen ability); [|done].
  rewrite Hl. unfold JsString.camelUnits.
  destruct (JsString.wordsOf _ _ _ _) as [|w ws]; [done|].
  f_equal. f_equal. apply map_ext. intros x.
  unfold JsString.capitalizeUnits. by rewrite Hu.
Qed.

End JsStringFacts.

(** ** The ASCII model as an instance *)

Section AsciiInstance.

Local Abbreviation L := Strings.String.list_ascii_of_string.

Lemma L_append (a b : string) : L (a +:+ b) = L a ++ L b.
Proof.
  induction a as [|c a IH]; [done|].
  change (String c a +:+ b) with (String c (a +:+ b)). simpl. by rewrite IH.
Qed.

Lemma L_rev_app (a b : string) :
  L (String.rev_app a b) = rev_append (L a) (L b).
Proof. revert b. induction a as [|c a IH]; intros b; simpl; [done|]. by rewrite IH. Qed.

Lemma L_toLowerCase (s : string) :
  L (Str.toLowerCase s) = map Str.lowerChar (L s).
Proof. induction s as [|c r IH]; simpl; [done|]. by rewrite IH. Qed.

Lemma L_join (l : list string) : L (Str.join l) = concat (map L l).
Proof.
  induction l as [|w l IH]; simpl; [done|]. by rewrite L_append, IH.
Qed.

Lemma L_capitalize (w : string) :
  L (Str.toUpperCase (Str.charAt0 w) +:+ Str.slice1 w)
  = map Str.upperChar (take 1 (L w)) ++ drop 1 (L w).
Proof. by destruct w. Qed.

Lemma isSep_table (c : ascii) :
  Str.isSep c = JsString.isSplitUnit "-"%char "_"%char AsciiTable.isWhite c.
Proof. by destruct c as [[] [] [] [] [] [] [] []]. Qed.

Lemma lowerChar_table (c : ascii) : Str.lowerChar c = AsciiTable.lowerLetter c.
Proof. by destruct c as [[] [] [] [] [] [] [] []]. Qed.

Lemma upperChar_table (c : ascii) : Str.upperChar c = AsciiTable.upperLetter c.
Proof. by destruct c as [[] [] [] [] [] [] [] []]. Qed.

Lemma eqb_hyphen_decide (c : ascii) :
  Ascii.eqb "-" c = bool_decide (c = "-"%char).
Proof.
  destruct (Ascii.eqb "-" c) eqn:He.
  - apply Ascii.eqb_eq in He as <-. by rewrite bool_decide_eq_true_2.
  - apply Ascii.eqb_neq in He. by rewrite bool_decide_eq_false_2.
Qed.

Lemma includes_hyphen_units (s : string) :
  Str.includes "-" s = JsString.includesUnit "-"%char (L s).
Proof.
  induction s as [|c r IH]; [done|].
  by rewrite includes_hyphen_cons, IH, eqb_hyphen_decide.
Qed.

Lemma L_splitGo (inRun : bool) (cur s : string) :
  map L (Str.splitGo inRun cur s)
  = JsString.splitUnitsGo "-"%char "_"%char AsciiTable.isWhite inRun (L cur) (L s).
Proof.
  revert inRun cur. induction s as [|c r IH]; intros inRun cur.
  - simpl. unfold String.rev. by rewrite L_rev_app.
  - cbn [Str.splitGo L JsString.splitUnitsGo]. rewrite <- isSep_table.
    destruct (Str.isSep c).
    + destruct inRun.
      * apply IH.
      * cbn [map]. unfold String.rev. by rewrite L_rev_app, IH.
    + apply (IH false (String c cur)).
Qed.

Lemma L_mapIndexFrom (i : nat) (l : list string) :
  map L
    (Str.mapIndexFrom
       (λ word index,
          if (index =? 0)%nat then word
          else Str.toUpperCase (Str.charAt0 word) +:+ Str.slice1 word) i l)
  = Str.mapIndexFrom
      (λ word index,
         if (index =? 0)%nat then word
         else map Str.upperChar (take 1 word) ++ drop 1 word) i (map L l).
Proof.
  revert i. induction l as [|w l IH]; intros i; [done|].
  cbn [Str.mapIndexFrom map]. rewrite IH. f_equal.
  destruct (i =? 0)%nat; [done | apply L_capitalize].
Qed.

(** The model on [string] is the code on lists of characters with the
    ASCII built-ins. *)
Lemma formatAbilityToMethod_units (ability : string) :
  L (formatAbilityToMethod ability)
  = JsString.formatUnits "-"%char "_"%char AsciiTable.isWhite
      (map Str.lowerChar) (map Str.upperChar) (L ability).
Proof.
  unfold formatAbilityToMethod, JsString.formatUnits.
  rewrite <- includes_hyphen_units.
  destruct (Str.includes "-" ability); [|done].
  rewrite L_join. unfold Str.mapIndex, Str.split, JsString.splitUnits.
  by rewrite L_mapIndexFrom, L_splitGo, L_toLowerCase.
Qed.

Lemma formatAbilityToMethod_table (ability : string) :
  formatAbilityToMethod ability = AsciiTable.methodName ability.
Proof.
  unfold AsciiTable.methodName.
  rewrite <- (methodNameUnits_ext "-"%char "_"%char AsciiTable.isWhite
                (map Str.lowerChar) (map Str.upperChar)).
  - unfold JsString.methodNameUnits. rewrite <- formatUnits_rule.
    rewrite <- formatAbilityToMethod_units.
    by rewrite Strings.String.string_of_list_ascii_of_string.
  - intros l. apply map_ext, lowerChar_table.
  - intros l. apply map_ext, upperChar_table.
Qed.

Lemma formatAbilityToMethod_methodName (ability : string) :
  formatAbilityToMethod ability = MethodNameRule.methodName ability.
Proof.
  unfold MethodNameRule.methodName.
  destruct (Str.includes "-" ability) eqn:Hh.
  - by apply formatAbilityToMethod_hyphen.
  - unfold formatAbilityToMethod. by rewrite Hh.
Qed.

End AsciiInstance.

(** C7. An ability name with a hyphen is lower-cased as a whole, cut
    into words on runs of hyphen, underscore and white space, and joined
    again with the first word as it is and every later word capitalized at
    its first character; a name without a hyphen is the method name as it
    stands.  This holds of the code on every JavaScript string, the
    built-ins [toLowerCase], [toUpperCase] and [\s] being whatever the
    engine provides; the model on ASCII strings is that code with the
    ASCII built-ins, and these are the letters and white space of the
    tables.  So [create-post] gives [createPost], upper case and
    underscores or spaces after a hyphen are folded too, and
    [createPost], [publish_post] and [Create Post] give themselves. *)
Theorem C7_method_name_derivation :
  (∀ ability : string,
     formatAbilityToMethod ability = MethodNameRule.methodName ability)
  ∧ (∀ ability : string,
       formatAbilityToMethod ability = AsciiTable.methodName ability)
  ∧ (∀ (C : Type) (dec : EqDecision C) (hyphen underscore : C)
       (isWhiteSpace : C → bool) (toLowerCase toUpperCase : list C → list C)
       (ability : list C),
       JsString.formatUnits hyphen underscore isWhiteSpace
         toLowerCase toUpperCase ability
       = if JsString.includesUnit hyphen ability
         then JsString.camelUnits toUpperCase
                (JsString.wordsOf hyphen underscore isWhiteSpace
                   (toLowerCase ability))
         else ability)
  ∧ (∀ ability : string,
       Strings.String.list_ascii_of_string (formatAbilityToMethod ability)
       = JsString.formatUnits "-"%char "_"%char AsciiTable.isWhite
           (map Str.lowerChar) (map Str.upperChar)
           (Strings.String.list_ascii_of_string ability))
  ∧ (∀ c : ascii,
       Str.lowerChar c = AsciiTable.lowerLetter c
       ∧ Str.upperChar c = AsciiTable.upperLetter c
       ∧ Str.isSep c
         = JsString.isSplitUnit "-"%char "_"%char AsciiTable.isWhite c)
  ∧ formatAbilityToMethod "create-post" = "createPost"
  ∧ formatAbilityToMethod "createPost" = "createPost"
  ∧ formatAbilityToMethod "publish_post" = "publish_post"
  ∧ formatAbilityToMethod "Create-POST" = "createPost"
  ∧ formatAbilityToMethod "PUBLISH-my_blog post" = "publishMyBlogPost"
  ∧ formatAbilityToMethod "a-_ -b" = "aB"
  ∧ formatAbilityToMethod "-post-" = "Post"
  ∧ formatAbilityToMethod "Create Post" = "Create Post".
Proof.
  split_and!; try reflexivity.
  - apply formatAbilityToMethod_methodName.
  - apply formatAbilityToMethod_table.
  - intros C dec hyphen underscore isWhiteSpace toLowerCase toUpperCase ability.
    apply formatUnits_rule.
  - apply formatAbilityToMethod_units.
  - intros c. split_and!.
    + apply lowerChar_table.
    + apply upperChar_table.
    + apply isSep_table.
Qed.

(** C8, amended.  White space folds words only behind the hyphen test: a
    name without a hyphen is the method name as it stands, white space
    included, on ASCII strings and on every JavaScript string; a name with
    a hyphen is folded into one token in which no hyphen, underscore or
    white space is left.  So [create-my post] gives [createMyPost] and
    [create post] gives [create post]. *)
Theorem C8_whitespace_folded_behind_hyphen :
  (∀ ability : string,
     Str.includes "-" ability = false →
     formatAbilityToMethod ability = ability)
  ∧ (∀ ability : string,
       Str.includes "-" ability = true →
       sepFree (formatAbilityToMethod ability) = true
       ∧ formatAbilityToMethod ability
         = MethodNameRule.camel
             (MethodNameRule.words (Str.toLowerCase ability)))
  ∧ (∀ (C : Type) (dec : EqDecision C) (hyphen underscore : C)
       (isWhiteSpace : C → bool) (toLowerCase toUpperCase : list C → list C)
       (ability : list C),
       JsString.includesUnit hyphen ability = false →
       JsString.formatUnits hyphen underscore isWhiteSpace
         toLowerCase toUpperCase ability = ability)
  ∧ formatAbilityToMethod "create-my post" = "createMyPost"
  ∧ formatAbilityToMethod "create post" = "create post".
Proof.
  split_and!; try reflexivity.
  - intros ability Hh. unfold formatAbilityToMethod. by rewrite Hh.
  - intros ability Hh. split.
    + rewrite (formatAbilityToMethod_hyphen ability Hh).
      apply sepFree_camel, sepFree_wordsFuel.
    + by apply formatAbilityToMethod_hyphen.
  - intros C dec hyphen underscore isWhiteSpace toLowerCase toUpperCase ability Hh.
    unfold JsString.formatUnits. by rewrite Hh.
Qed.

Lemma C8_witness :
  formatAbilityToMethod "create post" = "create post"
  ∧ sepFree (formatAbilityToMethod "create-my post") = true.
Proof.
  destruct C8_whitespace_folded_behind_hyphen as (Hkept & Hfolded & _).
  split.
  - apply Hkept. reflexivity.
  - apply (Hfolded "create-my post"). reflexivity.
Defined.

(** ** The registry after bootstrap *)

Section BootstrapOrder.

Context {W : Type}.
Implicit Types (g : GateService W) (providers : list (PolicyMeta * PolicyMap W)).





End BootstrapOrder.


